(** * ProfileReachedIndexSIMD, SIMD16u and aligned_allocator

    A shallow embedding of
    - [TripBased::ProfileReachedIndexSIMD] with both of its 128-bit backends
      (ARM NEON [makeMask] loop, x86 SSE2 [MAX_MASKS] table),
    - the two [SIMD16u] backends (AVX2 register, NEON [lo]/[hi] halves),
    - [aligned_allocator::allocate] (ARM [aligned_alloc], x86 [_mm_malloc]).

    Vector registers are modelled by their lanes: a function from the lane
    index (0..15) to the lane value, which is what the [values[16]] / [arr[16]]
    member of the source's unions exposes.  The index [labels] vector is a
    list of such registers, one per trip, read and written with stdpp's list
    lookup and insert. *)

From Stdlib Require Import ZArith Lia Bool.
From stdpp Require Import base list.

Open Scope Z_scope.

(* ------------------------------------------------------------------------- *)
(** ** 128-bit byte vectors ([simd128_t], [ReachedElement]) *)

Definition simd128 := nat -> Z.

(** [simd_set1_u8]: broadcast a byte to all lanes. *)
Definition simd_set1_u8 (val : Z) : simd128 := fun _ => val.

(** [simd_max_u8] / [simd_min_u8]: unsigned per-byte maximum / minimum. *)
Definition simd_max_u8 (a b : simd128) : simd128 := fun i => Z.max (a i) (b i).
Definition simd_min_u8 (a b : simd128) : simd128 := fun i => Z.min (a i) (b i).

Inductive arch := ARM | X86.

(** ARM [makeMask]: [buf[i] = 0xFF] for [i < round - 1 && i < 16], else 0. *)
Definition makeMask_arm (round : Z) : simd128 :=
  fun i => if (Z.of_nat i <? round - 1) && (i <? 16)%nat then 255 else 0.

(** Byte [i] of an [__m128i] given as its two little-endian 64-bit halves
    [{lo, hi}] (two's complement, so [-1] is all ones). *)
Definition m128_of_i64x2 (lo hi : Z) : simd128 :=
  fun i => if (i <? 8)%nat
           then Z.land (Z.shiftr lo (8 * Z.of_nat i)) 255
           else Z.land (Z.shiftr hi (8 * (Z.of_nat i - 8))) 255.

(** The x86 [MAX_MASKS] table: the 32 initialisers taken pairwise. *)
Definition MAX_MASKS : list (Z * Z) :=
  [ (0x0000000000000000, 0x0000000000000000);
    (0x00000000000000FF, 0x0000000000000000);
    (0x000000000000FFFF, 0x0000000000000000);
    (0x0000000000FFFFFF, 0x0000000000000000);
    (0x00000000FFFFFFFF, 0x0000000000000000);
    (0x000000FFFFFFFFFF, 0x0000000000000000);
    (0x0000FFFFFFFFFFFF, 0x0000000000000000);
    (0x00FFFFFFFFFFFFFF, 0x0000000000000000);
    (-1, 0x0000000000000000);
    (-1, 0x00000000000000FF);
    (-1, 0x000000000000FFFF);
    (-1, 0x0000000000FFFFFF);
    (-1, 0x00000000FFFFFFFF);
    (-1, 0x000000FFFFFFFFFF);
    (-1, 0x0000FFFFFFFFFFFF);
    (-1, 0x00FFFFFFFFFFFFFF) ].

(** x86 [makeMask]: [MAX_MASKS[round - 1]]. *)
Definition makeMask_x86 (round : Z) : simd128 :=
  let '(lo, hi) := nth (Z.to_nat (round - 1)) MAX_MASKS (0, 0) in
  m128_of_i64x2 lo hi.

Definition makeMask (a : arch) (round : Z) : simd128 :=
  match a with ARM => makeMask_arm round | X86 => makeMask_x86 round end.

(* ------------------------------------------------------------------------- *)
(** ** The timetable collaborator ([TripBased::Data]) *)

(** Modelled from the spec: [TripBased::Data] (DataStructures/TripBased/Data.h,
    not part of the sources) is only used through the trip count, the stop
    count of each trip, the route of each trip and the first trip of each
    route (§3 and §6 of the spec). *)
Record Data := {
  numberOfTrips : nat;
  numberOfStopsInTrip : nat -> nat;
  routeOfTrip : nat -> nat;
  firstTripOfRoute : nat -> nat
}.

Definition isTrip (d : Data) (t : nat) : bool := (t <? numberOfTrips d)%nat.

Definition forall_below (n : nat) (P : nat -> bool) : bool :=
  forallb P (seq 0 n).

(** Modelled from the spec: the shape of the timetable.  Trips of a route
    form the contiguous range [[firstTripOfRoute(route), firstTripOfRoute(
    route + 1))] inside [[0, numberOfTrips)], every trip of that range
    belongs to the route, and the trips of a route share its stop sequence,
    hence its stop count (§3, glossary). *)
Definition data_wf (d : Data) : bool :=
  forall_below (numberOfTrips d) (fun t =>
    let e := firstTripOfRoute d (routeOfTrip d t + 1) in
    (firstTripOfRoute d (routeOfTrip d t) <=? t)%nat && (t <? e)%nat &&
    (e <=? numberOfTrips d)%nat &&
    forall_below (numberOfTrips d) (fun t' =>
      (negb ((firstTripOfRoute d (routeOfTrip d t) <=? t')%nat && (t' <? e)%nat)
       || (routeOfTrip d t' =? routeOfTrip d t)%nat) &&
      (negb (routeOfTrip d t' =? routeOfTrip d t)%nat
       || (numberOfStopsInTrip d t' =? numberOfStopsInTrip d t)%nat))).

(* ------------------------------------------------------------------------- *)
(** ** [ProfileReachedIndexSIMD] *)

(** The [labels] member: one [ReachedElement] per trip. *)
Abbreviation labels_t := (list simd128).

(** [labels[tr]]; reading past the end is undefined in the source and never
    happens on a well-formed timetable, the model reads zeros there. *)
Definition get_label (L : labels_t) (tr : nat) : simd128 :=
  match L !! tr with Some v => v | None => fun _ => 0 end.

(** Constructor: [defaultLabels[trip]] filled with the stop count of the trip,
    converted to [u_int8_t]. *)
Definition defaultLabels (d : Data) : labels_t :=
  map (fun trip => simd_set1_u8 (Z.of_nat (numberOfStopsInTrip d trip) mod 256))
      (seq 0 (numberOfTrips d)).

(** [clear()]: [labels = defaultLabels]. *)
Definition clear (d : Data) (_ : labels_t) : labels_t := defaultLabels d.

(** [getPosition(trip, round)]: [labels[trip].values[round - 1]]. *)
Definition getPosition (L : labels_t) (trip : nat) (round : Z) : Z :=
  get_label L trip (Z.to_nat (round - 1)).

(** [alreadyReached(trip, position, round)]. *)
Definition alreadyReached (L : labels_t) (trip : nat) (position round : Z) : bool :=
  getPosition L trip round <=? position.

(** [operator()(trip, round) = value]: the direct accessor used to write. *)
Definition setPosition (L : labels_t) (trip : nat) (round value : Z) : labels_t :=
  <[trip := fun i => if (i =? Z.to_nat (round - 1))%nat then value
                      else get_label L trip i]> L.

(** The [for] loop of [update]; [fuel] is the number of trips left before
    [endt]. *)
Fixpoint update_loop (fuel : nat) (tr endt : nat) (position round : Z)
    (FILTER : simd128) (L : labels_t) : labels_t :=
  match fuel with
  | O => L
  | S f =>
      if (tr <? endt)%nat && (getPosition L tr round >? position)
      then update_loop f (S tr) endt position round FILTER
             (<[tr := simd_min_u8 (get_label L tr) FILTER]> L)
      else L
  end.

(** [update(trip, position, round)]. *)
Definition update (a : arch) (d : Data) (L : labels_t) (trip : nat)
    (position round : Z) : labels_t :=
  let mask := makeMask a round in
  let FILTER := simd_max_u8 (simd_set1_u8 position) mask in
  let endt := firstTripOfRoute d (routeOfTrip d trip + 1) in
  update_loop (endt - trip) trip endt position round FILTER L.

(** A sequence of [update(trip, position, round)] calls. *)
Fixpoint run_updates (a : arch) (d : Data) (L : labels_t)
    (ops : list (nat * Z * Z)) : labels_t :=
  match ops with
  | [] => L
  | (t, p, r) :: os => run_updates a d (update a d L t p r) os
  end.

(** The calls respect the debug assertions of [update] and the argument
    types: a valid trip, a [u_int8_t] position and a round in [[1, 15]]. *)
Definition ops_valid (d : Data) (ops : list (nat * Z * Z)) : bool :=
  forallb (fun '(t, p, r) =>
    isTrip d t && (0 <=? p) && (p <=? 255) && (1 <=? r) && (r <=? 15)) ops.

(** Spec side of the early-exit equivalence: the same lane-wise minimum with
    [FILTER] applied to every trip of [[tr, tr + fuel)], without early exit. *)
Fixpoint filter_all (fuel : nat) (tr : nat) (FILTER : simd128)
    (L : labels_t) : labels_t :=
  match fuel with
  | O => L
  | S f => filter_all f (S tr) FILTER (<[tr := simd_min_u8 (get_label L tr) FILTER]> L)
  end.

(* ------------------------------------------------------------------------- *)
(** ** [SIMD16u]: sixteen [uint16_t] lanes *)

Module SIMD16u.

(** x86 AVX2 backend: one [__m256i], seen lane-wise through [arr]. *)
Definition reg := nat -> Z.

(** [_mm256_cmpeq_epi16]: all ones (0xFFFF) on equal lanes. *)
Definition cmpeq_epi16 (a b : reg) : reg :=
  fun i => if a i =? b i then 65535 else 0.

(** [max(o)] / [min(o)]: the new receiver and the returned mask. *)
Definition max_x86 (v o : reg) : reg * reg :=
  let m := fun i => Z.max (v i) (o i) in
  let eq0 := cmpeq_epi16 m v in
  (m, eq0).

Definition min_x86 (v o : reg) : reg * reg :=
  let m := fun i => Z.min (v i) (o i) in
  let eq0 := cmpeq_epi16 m v in
  (m, eq0).

(** ARM NEON backend: two [uint16x8_t] halves. *)
Record Holder := { lo : nat -> Z; hi : nat -> Z }.

(** The [arr[16]] view of the union. *)
Definition arr (v : Holder) (i : nat) : Z :=
  if (i <? 8)%nat then lo v i else hi v (i - 8).

Definition vmaxq_u16 (a b : nat -> Z) : nat -> Z := fun i => Z.max (a i) (b i).
Definition vminq_u16 (a b : nat -> Z) : nat -> Z := fun i => Z.min (a i) (b i).
Definition vceqq_u16 (a b : nat -> Z) : nat -> Z :=
  fun i => if a i =? b i then 65535 else 0.

(** [maxmask(o)] / [minmask(o)]: the new receiver and the returned mask. *)
Definition maxmask (v o : Holder) : Holder * Holder :=
  let mlo := vmaxq_u16 (lo v) (lo o) in
  let mhi := vmaxq_u16 (hi v) (hi o) in
  let eq0lo := vceqq_u16 mlo (lo v) in
  let eq0hi := vceqq_u16 mhi (hi v) in
  ({| lo := mlo; hi := mhi |}, {| lo := eq0lo; hi := eq0hi |}).

Definition minmask (v o : Holder) : Holder * Holder :=
  let mlo := vminq_u16 (lo v) (lo o) in
  let mhi := vminq_u16 (hi v) (hi o) in
  let eq0lo := vceqq_u16 mlo (lo v) in
  let eq0hi := vceqq_u16 mhi (hi v) in
  ({| lo := mlo; hi := mhi |}, {| lo := eq0lo; hi := eq0hi |}).

(** Lane arithmetic on [uint16_t]: wrap-around modulo 2^16. *)
Definition u16 (x : Z) : Z := x mod 2 ^ 16.

(** [load(ptr)] / [store(ptr)] on a buffer of [uint16_t] (offset to value). *)
Definition load_x86 (ptr : nat -> Z) : reg := fun i => ptr i.
Definition store_x86 (v : reg) (buf : nat -> Z) : nat -> Z :=
  fun k => if (k <? 16)%nat then v k else buf k.

(** [operator[](i)]: [arr[i & 15]]. *)
Definition index_x86 (v : reg) (i : nat) : Z := v (Nat.land i 15).

(** [operator+] / [operator-]: [_mm256_add_epi16] / [_mm256_sub_epi16]. *)
Definition add_x86 (a b : reg) : reg := fun i => u16 (a i + b i).
Definition sub_x86 (a b : reg) : reg := fun i => u16 (a i - b i).

(** [sll(bits)] / [srl(bits)]: [_mm256_slli_epi16] / [_mm256_srli_epi16];
    the count is read unsigned, so a negative [int] or a count above 15 gives
    0. *)
Definition sll_x86 (v : reg) (bits : Z) : reg :=
  fun i => if (bits <? 0) || (15 <? bits) then 0 else u16 (Z.shiftl (v i) bits).
Definition srl_x86 (v : reg) (bits : Z) : reg :=
  fun i => if (bits <? 0) || (15 <? bits) then 0 else Z.shiftr (v i) bits.

(** Byte [k] (0 or 1) of a lane. *)
Definition byte_of (x : Z) (k : Z) : Z := Z.land (Z.shiftr x (8 * k)) 255.

(** [_mm256_blendv_epi8(a, b, mask)]: per byte, [b] where the top bit of the
    mask byte is set, [a] elsewhere. *)
Definition blendv_epi8 (a b mask : reg) : reg :=
  fun i =>
    let sel k := if Z.testbit (mask i) (8 * k + 7) then byte_of (b i) k
                 else byte_of (a i) k in
    sel 0 + sel 1 * 256.

(** [blend(other, mask)]: [v.reg = _mm256_blendv_epi8(other.v.reg, v.reg, mask)]. *)
Definition blend_x86 (v other mask : reg) : reg := blendv_epi8 other v mask.

(** ARM: [load] reads two halves of 8 lanes, [store] writes them back. *)
Definition load_arm (ptr : nat -> Z) : Holder :=
  {| lo := fun i => ptr i; hi := fun i => ptr (8 + i)%nat |}.
Definition store_arm (v : Holder) (buf : nat -> Z) : nat -> Z :=
  fun k => if (k <? 8)%nat then lo v k
           else if (k <? 16)%nat then hi v (k - 8) else buf k.

Definition index_arm (v : Holder) (i : nat) : Z := arr v (Nat.land i 15).

Definition vaddq_u16 (a b : nat -> Z) : nat -> Z := fun i => u16 (a i + b i).
Definition vsubq_u16 (a b : nat -> Z) : nat -> Z := fun i => u16 (a i - b i).

Definition add_arm (v o : Holder) : Holder :=
  {| lo := vaddq_u16 (lo v) (lo o); hi := vaddq_u16 (hi v) (hi o) |}.
Definition sub_arm (v o : Holder) : Holder :=
  {| lo := vsubq_u16 (lo v) (lo o); hi := vsubq_u16 (hi v) (hi o) |}.

(** [static_cast<int16_t>]: two's complement wrap to 16 bits. *)
Definition to_s16 (x : Z) : Z :=
  let y := x mod 2 ^ 16 in if 2 ^ 15 <=? y then y - 2 ^ 16 else y.

(** [vshlq_u16(a, s)]: each lane shifted by the signed low byte of the
    matching lane of [s], left when positive, right when negative; a shift
    by 16 or more gives 0. *)
Definition vshlq_u16 (a s : nat -> Z) : nat -> Z :=
  fun i =>
    let b := s i mod 256 in
    let sh := if 128 <=? b then b - 256 else b in
    if 0 <=? sh then (if 16 <=? sh then 0 else u16 (Z.shiftl (a i) sh))
    else (if 16 <=? - sh then 0 else Z.shiftr (a i) (- sh)).

(** [vdupq_n_s16]. *)
Definition vdupq_n_s16 (x : Z) : nat -> Z := fun _ => x.

Definition sll_arm (v : Holder) (bits : Z) : Holder :=
  let shift := vdupq_n_s16 (to_s16 bits) in
  {| lo := vshlq_u16 (lo v) shift; hi := vshlq_u16 (hi v) shift |}.
Definition srl_arm (v : Holder) (bits : Z) : Holder :=
  let shift := vdupq_n_s16 (to_s16 (- bits)) in
  {| lo := vshlq_u16 (lo v) shift; hi := vshlq_u16 (hi v) shift |}.

(** [vbslq_u16(mask, a, b)]: bitwise select, [a] where the mask bit is 1. *)
Definition vbslq_u16 (mask a b : nat -> Z) : nat -> Z :=
  fun i => Z.lor (Z.land (mask i) (a i)) (Z.land (Z.lxor (mask i) 65535) (b i)).

(** [blend(other, mask)]. *)
Definition blend_arm (v other mask : Holder) : Holder :=
  {| lo := vbslq_u16 (lo mask) (lo v) (lo other);
     hi := vbslq_u16 (hi mask) (hi v) (hi other) |}.

End SIMD16u.

(* ------------------------------------------------------------------------- *)
(** ** [aligned_allocator<T, Alignment>::allocate] *)

Module AlignedAllocator.

(** [std::size_t] is 64 bits wide. *)
Definition wrap (x : Z) : Z := x mod 2 ^ 64.

(** [max_size()]: [(size_t(0) - size_t(1)) / sizeof(T)]. *)
Definition max_size (sizeofT : Z) : Z := wrap (0 - 1) / sizeofT.

(** [total = n * sizeof(T)]. *)
Definition byte_total (sizeofT n : Z) : Z := wrap (n * sizeofT).

(** [aligned_total = (total + Alignment - 1) & ~(Alignment - 1)]. *)
Definition round_up (Alignment total : Z) : Z :=
  Z.land (wrap (total + Alignment - 1)) (wrap (Z.lnot (wrap (Alignment - 1)))).

Inductive result := AllocNull | LengthError | BadAlloc | AllocOk (p : Z).

(** The platform allocator: alignment and byte size to a pointer, [None] for
    [NULL]. *)
Definition platform := Z -> Z -> option Z.

(** The [#if] block: [std::aligned_alloc(Alignment, aligned_total)] on ARM,
    [_mm_malloc(total, Alignment)] on x86. *)
Definition platform_alloc (a : arch) (plat : platform) (Alignment total
    aligned_total : Z) : option Z :=
  match a with
  | ARM => plat Alignment aligned_total
  | X86 => plat Alignment total
  end.

Definition allocate (a : arch) (sizeofT Alignment : Z) (plat : platform)
    (n : Z) : result :=
  if n =? 0 then AllocNull
  else if n >? max_size sizeofT then LengthError
  else
    let total := byte_total sizeofT n in
    let aligned_total := round_up Alignment total in
    match platform_alloc a plat Alignment total aligned_total with
    | None => BadAlloc
    | Some pv => AllocOk pv
    end.

End AlignedAllocator.

(* ------------------------------------------------------------------------- *)
(** ** Concrete timetables *)

(** One route of three trips with five stops each (§8 of the spec). *)
Definition route3 : Data := {|
  numberOfTrips := 3;
  numberOfStopsInTrip := fun _ => 5%nat;
  routeOfTrip := fun _ => 0%nat;
  firstTripOfRoute := fun r => match r with O => 0%nat | _ => 3%nat end
|}.

(** One route made of a single trip with 256 stops. *)
Definition long_trip : Data := {|
  numberOfTrips := 1;
  numberOfStopsInTrip := fun _ => 256%nat;
  routeOfTrip := fun _ => 0%nat;
  firstTripOfRoute := fun r => match r with O => 0%nat | _ => 1%nat end
|}.

(* ========================================================================= *)
(** * Properties *)

(** The concrete scenario of the spec, on both backends. *)
Example scenario_clear : alreadyReached (clear route3 []) 0 4 1 = false.
Proof. reflexivity. Qed.

Example scenario_update (a : arch) :
  let L := update a route3 (clear route3 []) 0 2 1 in
  alreadyReached L 0 2 1 = true /\ alreadyReached L 0 2 5 = true /\
  alreadyReached L 0 1 1 = false /\ alreadyReached L 2 2 1 = true.
Proof. destruct a; vm_compute; repeat split. Qed.

Example data_wf_route3 : data_wf route3 = true.
Proof. reflexivity. Qed.

(** Both backends build the same mask: bytes [0 .. round-2] are 0xFF. *)
Lemma makeMask_lane (a : arch) (round : Z) (i : nat) :
  1 <= round <= 15 -> (i < 16)%nat ->
  makeMask a round i = if (Z.of_nat i <? round - 1) then 255 else 0.
Proof.
  intros Hr Hi. destruct a; simpl.
  - unfold makeMask_arm. replace (i <? 16)%nat with true
      by (symmetry; apply Nat.ltb_lt; lia). now rewrite andb_true_r.
  - assert (Hc : forall r, (0 <= r < 15)%nat ->
      forallb (fun j => makeMask_x86 (Z.of_nat r + 1) j =?
                        (if Z.of_nat j <? Z.of_nat r then 255 else 0))
              (seq 0 16) = true).
    { intros r Hr'. do 15 (destruct r as [|r]; [vm_compute; reflexivity|]). lia. }
    specialize (Hc (Z.to_nat (round - 1)) ltac:(lia)).
    rewrite forallb_forall in Hc. specialize (Hc i).
    rewrite in_seq in Hc. specialize (Hc ltac:(lia)).
    apply Z.eqb_eq in Hc. rewrite Z2Nat.id in Hc by lia.
    now replace (round - 1 + 1) with round in Hc by lia.
Qed.

(* ------------------------------------------------------------------------- *)
(** ** Reading the label vector *)

Lemma get_label_insert (L : labels_t) (tr j : nat) (v : simd128) :
  get_label (<[tr := v]> L) j =
  if decide (tr = j /\ (tr < length L)%nat) then v else get_label L j.
Proof.
  unfold get_label. rewrite list_lookup_insert.
  destruct (decide _); reflexivity.
Qed.

Lemma getPosition_insert_ne (L : labels_t) (tr j : nat) (v : simd128) (r : Z) :
  tr <> j -> getPosition (<[tr := v]> L) j r = getPosition L j r.
Proof.
  intros Hne. unfold getPosition. rewrite get_label_insert.
  destruct (decide _) as [[]|]; [congruence | reflexivity].
Qed.

Lemma lookup_map_nat {A} (f : nat -> A) (l : list nat) (i : nat) :
  map f l !! i = f <$> (l !! i).
Proof. revert i. induction l as [|x l IH]; intros [|i]; simpl; auto. Qed.

Lemma get_label_defaultLabels (d : Data) (j : nat) :
  get_label (defaultLabels d) j =
  if decide (j < numberOfTrips d)%nat
  then simd_set1_u8 (Z.of_nat (numberOfStopsInTrip d j) mod 256)
  else fun _ => 0.
Proof.
  unfold get_label, defaultLabels. rewrite lookup_map_nat.
  destruct (decide _).
  - rewrite lookup_seq_lt by lia. reflexivity.
  - rewrite lookup_seq_ge by lia. reflexivity.
Qed.

Lemma length_defaultLabels (d : Data) : length (defaultLabels d) = numberOfTrips d.
Proof. unfold defaultLabels. now rewrite length_map, length_seq. Qed.

(** The lanes of [FILTER]: 0xFF below [round - 1], [position] from there. *)
Lemma filter_lane (a : arch) (p r : Z) (i : nat) :
  0 <= p <= 255 -> 1 <= r <= 15 -> (i < 16)%nat ->
  simd_max_u8 (simd_set1_u8 p) (makeMask a r) i =
  if Z.of_nat i <? r - 1 then 255 else p.
Proof.
  intros Hp Hr Hi. unfold simd_max_u8, simd_set1_u8.
  rewrite makeMask_lane by assumption.
  destruct (Z.of_nat i <? r - 1); lia.
Qed.

(* ------------------------------------------------------------------------- *)
(** ** The shape of the update loop *)

(** The loop lowers exactly the trips of [[tr, k)] for an exit point [k]: all
    of them lie before [endt] and are worse than [position] at [round], and
    at [k] (unless the fuel ran out) the scan hit [endt] or a trip that is
    already as good. *)
Lemma update_loop_shape (fuel tr endt : nat) (p r : Z) (F : simd128)
    (L : labels_t) :
  exists k, (tr <= k <= tr + fuel)%nat /\
    (forall j, (tr <= j < k)%nat -> (j < endt)%nat /\ p < getPosition L j r) /\
    ((k < tr + fuel)%nat -> (endt <= k)%nat \/ getPosition L k r <= p) /\
    length (update_loop fuel tr endt p r F L) = length L /\
    forall j, get_label (update_loop fuel tr endt p r F L) j =
      if decide ((tr <= j < k)%nat /\ (j < length L)%nat)
      then simd_min_u8 (get_label L j) F else get_label L j.
Proof.
  revert tr L. induction fuel as [|f IH]; intros tr L; simpl.
  - exists tr. split; [lia|]. split; [intros; lia|]. split; [intros; lia|].
    split; [reflexivity|]. intros j. destruct (decide _); [lia | reflexivity].
  - destruct ((tr <? endt)%nat && (getPosition L tr r >? p)) eqn:Hc.
    + apply andb_true_iff in Hc as [Hc1 Hc2].
      apply Nat.ltb_lt in Hc1. apply Z.gtb_lt in Hc2.
      set (L' := <[tr := simd_min_u8 (get_label L tr) F]> L).
      destruct (IH (S tr) L') as (k & Hk & Hin & Hex & Hlen & Hget).
      assert (HlenL' : length L' = length L) by apply length_insert.
      exists k. split; [lia|]. split; [|split; [|split]].
      * intros j Hj. destruct (decide (j = tr)) as [->|Hne]; [now split|].
        destruct (Hin j ltac:(lia)) as [Hj1 Hj2]. split; [exact Hj1|].
        unfold L' in Hj2. rewrite getPosition_insert_ne in Hj2 by congruence.
        exact Hj2.
      * intros Hk'. destruct (Hex ltac:(lia)) as [H|H]; [now left|right].
        unfold L' in H. rewrite getPosition_insert_ne in H by lia. exact H.
      * rewrite Hlen. exact HlenL'.
      * intros j. rewrite Hget, HlenL'. unfold L'.
        rewrite !get_label_insert.
        repeat destruct (decide _); try reflexivity; try lia.
        all: destruct_and?; subst; reflexivity.
    + exists tr. split; [lia|]. split; [intros; lia|]. split; [|split].
      * intros _. apply andb_false_iff in Hc as [Hc|Hc].
        -- apply Nat.ltb_ge in Hc. now left.
        -- right. rewrite Z.gtb_ltb in Hc. apply Z.ltb_ge in Hc. exact Hc.
      * reflexivity.
      * intros j. destruct (decide _); [lia | reflexivity].
Qed.

Lemma filter_all_shape (fuel tr : nat) (F : simd128) (L : labels_t) :
  length (filter_all fuel tr F L) = length L /\
  forall j, get_label (filter_all fuel tr F L) j =
    if decide ((tr <= j < tr + fuel)%nat /\ (j < length L)%nat)
    then simd_min_u8 (get_label L j) F else get_label L j.
Proof.
  revert tr L. induction fuel as [|f IH]; intros tr L; simpl.
  - split; [reflexivity|]. intros j. destruct (decide _); [lia|reflexivity].
  - destruct (IH (S tr) (<[tr := simd_min_u8 (get_label L tr) F]> L))
      as [Hlen Hget].
    rewrite length_insert in Hlen, Hget. split; [exact Hlen|].
    intros j. rewrite Hget, !get_label_insert.
    repeat destruct (decide _); try reflexivity; try lia.
    all: destruct_and?; subst; reflexivity.
Qed.

(** [update] only ever lowers a trip to its lane-wise minimum with [FILTER]. *)
Lemma update_shape (a : arch) (d : Data) (L : labels_t) (t : nat) (p r : Z) :
  let endt := firstTripOfRoute d (routeOfTrip d t + 1) in
  let F := simd_max_u8 (simd_set1_u8 p) (makeMask a r) in
  exists k, (t <= k <= endt `max` t)%nat /\
    (forall j, (t <= j < k)%nat -> (j < endt)%nat /\ p < getPosition L j r) /\
    ((k < endt)%nat -> getPosition L k r <= p) /\
    length (update a d L t p r) = length L /\
    forall j, get_label (update a d L t p r) j =
      if decide ((t <= j < k)%nat /\ (j < length L)%nat)
      then simd_min_u8 (get_label L j) F else get_label L j.
Proof.
  intros endt F. unfold update.
  destruct (update_loop_shape (endt - t) t endt p r F L)
    as (k & Hk & Hin & Hex & Hlen & Hget).
  exists k. split; [lia|]. split; [exact Hin|]. split; [|split; [exact Hlen|exact Hget]].
  intros Hk'. destruct (Hex ltac:(lia)) as [H|H]; [lia|exact H].
Qed.

(* ------------------------------------------------------------------------- *)
(** ** State invariants *)

(** Every lane holds a [u_int8_t]. *)
Definition bytes (L : labels_t) : Prop :=
  forall j i, (i < 16)%nat -> 0 <= get_label L j i <= 255.

(** Within a trip, positions do not increase from one lane to the next. *)
Definition round_mono (L : labels_t) : Prop :=
  forall j i, (i < 15)%nat -> get_label L j (S i) <= get_label L j i.

(** Along a route, a trip is lane-wise at least as good as its predecessor. *)
Definition trip_order (d : Data) (L : labels_t) : Prop :=
  forall j, isTrip d (S j) = true -> routeOfTrip d (S j) = routeOfTrip d j ->
  forall i, (i < 16)%nat -> get_label L (S j) i <= get_label L j i.

Lemma round_mono_le (L : labels_t) (j i i' : nat) :
  round_mono L -> (i <= i' < 16)%nat -> get_label L j i' <= get_label L j i.
Proof.
  intros Hm [Hle Hlt]. induction Hle as [|i' Hle IH].
  - lia.
  - specialize (Hm j i' ltac:(lia)). specialize (IH ltac:(lia)). lia.
Qed.

Lemma min_filter_lane (a : arch) (v : simd128) (p r : Z) (i : nat) :
  0 <= p <= 255 -> 1 <= r <= 15 -> (i < 16)%nat -> 0 <= v i <= 255 ->
  simd_min_u8 v (simd_max_u8 (simd_set1_u8 p) (makeMask a r)) i =
  if Z.of_nat i <? r - 1 then v i else Z.min (v i) p.
Proof.
  intros Hp Hr Hi Hv. unfold simd_min_u8 at 1. rewrite filter_lane by assumption.
  destruct (Z.of_nat i <? r - 1); lia.
Qed.

Lemma clear_bytes (d : Data) (L : labels_t) : bytes (clear d L).
Proof.
  intros j i _. unfold clear. rewrite get_label_defaultLabels.
  destruct (decide _); unfold simd_set1_u8; [|lia].
  pose proof (Z.mod_pos_bound (Z.of_nat (numberOfStopsInTrip d j)) 256). lia.
Qed.

Lemma clear_round_mono (d : Data) (L : labels_t) : round_mono (clear d L).
Proof.
  intros j i _. unfold clear. rewrite !get_label_defaultLabels.
  destruct (decide _); unfold simd_set1_u8; lia.
Qed.

Lemma update_bytes (a : arch) (d : Data) (L : labels_t) (t : nat) (p r : Z) :
  0 <= p <= 255 -> 1 <= r <= 15 -> bytes L -> bytes (update a d L t p r).
Proof.
  intros Hp Hr HB j i Hi.
  destruct (update_shape a d L t p r) as (k & _ & _ & _ & _ & Hget).
  rewrite Hget. specialize (HB j i Hi).
  destruct (decide _); [|exact HB].
  rewrite min_filter_lane by assumption. destruct (_ <? _); lia.
Qed.

Lemma update_round_mono (a : arch) (d : Data) (L : labels_t) (t : nat) (p r : Z) :
  0 <= p <= 255 -> 1 <= r <= 15 -> bytes L -> round_mono L ->
  round_mono (update a d L t p r).
Proof.
  intros Hp Hr HB HM j i Hi.
  destruct (update_shape a d L t p r) as (k & _ & _ & _ & _ & Hget).
  rewrite !Hget. specialize (HM j i Hi).
  destruct (decide _); [|exact HM].
  rewrite !min_filter_lane by (try apply HB; lia).
  destruct (Z.of_nat (S i) <? r - 1) eqn:E1, (Z.of_nat i <? r - 1) eqn:E2;
    try lia.
  apply Z.ltb_lt in E1. apply Z.ltb_ge in E2. lia.
Qed.

Lemma forall_below_spec (n : nat) (P : nat -> bool) :
  forall_below n P = true -> forall t, (t < n)%nat -> P t = true.
Proof.
  unfold forall_below. rewrite forallb_forall. intros H t Ht.
  apply H. apply in_seq. lia.
Qed.

Lemma data_wf_spec (d : Data) : data_wf d = true ->
  (forall t, (t < numberOfTrips d)%nat ->
     (firstTripOfRoute d (routeOfTrip d t) <= t)%nat /\
     (t < firstTripOfRoute d (routeOfTrip d t + 1))%nat /\
     (firstTripOfRoute d (routeOfTrip d t + 1) <= numberOfTrips d)%nat) /\
  (forall t t', (t < numberOfTrips d)%nat -> (t' < numberOfTrips d)%nat ->
     (firstTripOfRoute d (routeOfTrip d t) <= t')%nat ->
     (t' < firstTripOfRoute d (routeOfTrip d t + 1))%nat ->
     routeOfTrip d t' = routeOfTrip d t) /\
  (forall t t', (t < numberOfTrips d)%nat -> (t' < numberOfTrips d)%nat ->
     routeOfTrip d t' = routeOfTrip d t ->
     numberOfStopsInTrip d t' = numberOfStopsInTrip d t).
Proof.
  intros H. pose proof (forall_below_spec _ _ H) as Ht.
  split; [|split].
  - intros t Hlt. specialize (Ht t Hlt). simpl in Ht.
    apply andb_true_iff in Ht as [Ht _].
    apply andb_true_iff in Ht as [Ht H3]. apply andb_true_iff in Ht as [H1 H2].
    apply Nat.leb_le in H1. apply Nat.ltb_lt in H2. apply Nat.leb_le in H3.
    lia.
  - intros t t' Hlt Hlt' H1 H2. specialize (Ht t Hlt). simpl in Ht.
    apply andb_true_iff in Ht as [_ Ht].
    specialize (forall_below_spec _ _ Ht t' Hlt') as Hc.
    apply andb_true_iff in Hc as [Hc _]. apply orb_true_iff in Hc as [Hc|Hc].
    + apply negb_true_iff in Hc. apply andb_false_iff in Hc as [Hc|Hc].
      * apply Nat.leb_gt in Hc. lia.
      * apply Nat.ltb_ge in Hc. lia.
    + now apply Nat.eqb_eq in Hc.
  - intros t t' Hlt Hlt' Hr. specialize (Ht t Hlt). simpl in Ht.
    apply andb_true_iff in Ht as [_ Ht].
    specialize (forall_below_spec _ _ Ht t' Hlt') as Hc.
    apply andb_true_iff in Hc as [_ Hc]. apply orb_true_iff in Hc as [Hc|Hc].
    + apply negb_true_iff in Hc. apply Nat.eqb_neq in Hc. congruence.
    + now apply Nat.eqb_eq in Hc.
Qed.

Lemma clear_trip_order (d : Data) (L : labels_t) :
  data_wf d = true -> trip_order d (clear d L).
Proof.
  intros Hwf j Hj Hr i _. destruct (data_wf_spec d Hwf) as (_ & _ & Hstops).
  unfold isTrip in Hj. apply Nat.ltb_lt in Hj.
  unfold clear. rewrite !get_label_defaultLabels.
  destruct (decide (S j < _)%nat); [|lia]. destruct (decide (j < _)%nat); [|lia].
  unfold simd_set1_u8. rewrite (Hstops j (S j)) by (auto; lia). lia.
Qed.

Lemma update_trip_order (a : arch) (d : Data) (L : labels_t) (t : nat) (p r : Z) :
  data_wf d = true -> isTrip d t = true -> 0 <= p <= 255 -> 1 <= r <= 15 ->
  bytes L -> round_mono L -> trip_order d L ->
  trip_order d (update a d L t p r).
Proof.
  intros Hwf Ht Hp Hr HB HM HO j Hj Hroute i Hi.
  destruct (data_wf_spec d Hwf) as (Hrange & Huniq & _).
  unfold isTrip in Ht, Hj. apply Nat.ltb_lt in Ht, Hj.
  destruct (update_shape a d L t p r) as (k & Hk & Hin & Hex & _ & Hget).
  rewrite !Hget. specialize (HO j ltac:(unfold isTrip; apply Nat.ltb_lt; lia)
                               Hroute i Hi).
  pose proof (HB j i Hi) as Hbj. pose proof (HB (S j) i Hi) as Hbsj.
  destruct (decide ((t <= S j < k)%nat /\ _)) as [HS|HS];
  destruct (decide ((t <= j < k)%nat /\ _)) as [H0|H0].
  - rewrite !min_filter_lane by (try apply HB; lia).
    destruct (_ <? _); lia.
  - rewrite min_filter_lane by (try apply HB; lia). destruct (_ <? _); lia.
  - destruct (decide (S j < length L)%nat) as [Hlt|Hge].
    2:{ unfold get_label at 1. rewrite (lookup_ge_None_2 L (S j)) by lia.
        rewrite min_filter_lane by (try apply HB; lia). destruct (_ <? _); lia. }
    (* [j] is the last lowered trip and [S j = k] is the exit point *)
    assert (Hk' : k = S j) by lia. subst k.
    destruct (Hin j ltac:(lia)) as [Hje _].
    destruct (Hrange t Ht) as (Hf & _ & _).
    assert (Hrj : routeOfTrip d j = routeOfTrip d t)
      by (apply Huniq; lia).
    destruct (Hrange (S j) Hj) as (_ & Hsj & _).
    rewrite Hroute, Hrj in Hsj.
    specialize (Hex Hsj).
    rewrite min_filter_lane by (try apply HB; lia).
    destruct (Z.of_nat i <? r - 1) eqn:E; [lia|].
    apply Z.ltb_ge in E.
    pose proof (round_mono_le L (S j) (Z.to_nat (r - 1)) i HM ltac:(lia)).
    unfold getPosition in Hex. lia.
  - lia.
Qed.

Lemma ops_valid_cons (d : Data) (t : nat) (p r : Z) ops :
  ops_valid d ((t, p, r) :: ops) = true ->
  isTrip d t = true /\ 0 <= p <= 255 /\ 1 <= r <= 15 /\ ops_valid d ops = true.
Proof.
  simpl. intros H. apply andb_true_iff in H as [H Hops].
  repeat (apply andb_true_iff in H as [H ?]).
  rewrite ?Z.leb_le in *. auto with lia.
Qed.

Lemma run_bytes_round_mono (a : arch) (d : Data) (ops : list (nat * Z * Z))
    (L : labels_t) :
  ops_valid d ops = true -> bytes L -> round_mono L ->
  bytes (run_updates a d L ops) /\ round_mono (run_updates a d L ops).
Proof.
  revert L. induction ops as [|[[t p] r] ops IH]; intros L Hv HB HM; simpl.
  - now split.
  - apply ops_valid_cons in Hv as (Ht & Hp & Hr & Hv).
    apply IH; [exact Hv | apply update_bytes | apply update_round_mono]; auto.
Qed.

Lemma run_trip_order (a : arch) (d : Data) (ops : list (nat * Z * Z))
    (L : labels_t) :
  data_wf d = true -> ops_valid d ops = true ->
  bytes L -> round_mono L -> trip_order d L ->
  trip_order d (run_updates a d L ops).
Proof.
  revert L. induction ops as [|[[t p] r] ops IH]; intros L Hwf Hv HB HM HO; simpl.
  - exact HO.
  - apply ops_valid_cons in Hv as (Ht & Hp & Hr & Hv).
    apply IH; auto using update_bytes, update_round_mono, update_trip_order.
Qed.

Lemma reachable_inv (a : arch) (d : Data) (L0 : labels_t)
    (ops : list (nat * Z * Z)) :
  ops_valid d ops = true ->
  bytes (run_updates a d (clear d L0) ops) /\
  round_mono (run_updates a d (clear d L0) ops).
Proof.
  intros Hv. apply run_bytes_round_mono;
    auto using clear_bytes, clear_round_mono.
Qed.

(** Along a route, a later trip is lane-wise at least as good as an earlier
    one. *)
Lemma trip_order_chain (d : Data) (L : labels_t) (t k j : nat) (i : nat) :
  data_wf d = true -> trip_order d L -> isTrip d t = true ->
  (firstTripOfRoute d (routeOfTrip d t) <= k <= j)%nat ->
  (j < firstTripOfRoute d (routeOfTrip d t + 1))%nat -> (i < 16)%nat ->
  get_label L j i <= get_label L k i.
Proof.
  intros Hwf HO Ht [Hk Hkj] Hj Hi.
  destruct (data_wf_spec d Hwf) as (Hrange & Huniq & _).
  unfold isTrip in Ht. apply Nat.ltb_lt in Ht.
  destruct (Hrange t Ht) as (_ & _ & Hend).
  induction Hkj as [|j Hkj IH]; [lia|].
  assert (Hm : routeOfTrip d j = routeOfTrip d t) by (apply Huniq; lia).
  assert (Hsm : routeOfTrip d (S j) = routeOfTrip d t) by (apply Huniq; lia).
  specialize (HO j ltac:(unfold isTrip; apply Nat.ltb_lt; lia)
                 ltac:(congruence) i Hi).
  specialize (IH ltac:(lia)). lia.
Qed.

(* ------------------------------------------------------------------------- *)
(** ** Propagation of one update (C1) *)




Lemma run_length (a : arch) (d : Data) (ops : list (nat * Z * Z)) (L : labels_t) :
  length (run_updates a d L ops) = length L.
Proof.
  revert L. induction ops as [|[[t p] r] ops IH]; intros L; simpl; [reflexivity|].
  rewrite IH. destruct (update_shape a d L t p r) as (k & _ & _ & _ & H & _).
  exact H.
Qed.




(* ------------------------------------------------------------------------- *)
(** ** Monotonicity (C3) *)

Lemma update_le (a : arch) (d : Data) (L : labels_t) (t : nat) (p r : Z) :
  length (update a d L t p r) = length L /\
  forall j i, get_label (update a d L t p r) j i <= get_label L j i.
Proof.
  destruct (update_shape a d L t p r) as (k & _ & _ & _ & Hlen & Hget).
  split; [exact Hlen|]. intros j i. rewrite Hget.
  destruct (decide _); [unfold simd_min_u8; lia | lia].
Qed.

(** C3.  No [update] call raises a stored position: after one call, and
    after any sequence of calls, every lane of every trip is at most what it
    was before. *)
Theorem update_monotone :
  (forall (a : arch) (d : Data) (L : labels_t) (t : nat) (p r : Z),
     length (update a d L t p r) = length L /\
     forall j i, get_label (update a d L t p r) j i <= get_label L j i) /\
  (forall (a : arch) (d : Data) (L : labels_t) (ops : list (nat * Z * Z)),
     length (run_updates a d L ops) = length L /\
     forall j i, get_label (run_updates a d L ops) j i <= get_label L j i).
Proof.
  split; [exact update_le|].
  intros a d L ops. revert L.
  induction ops as [|[[t p] r] ops IH]; intros L; simpl.
  - split; [reflexivity|]. intros; lia.
  - destruct (update_le a d L t p r) as [H1 H2].
    destruct (IH (update a d L t p r)) as [H3 H4].
    split; [congruence|]. intros j i. specialize (H2 j i). specialize (H4 j i).
    lia.
Qed.

(* ------------------------------------------------------------------------- *)
(** ** Cross-round monotonicity (C9) *)

(** C9.  In every state reached from [clear()] by valid [update] calls, the
    position of a trip at round [r + 1] is at most its position at round [r],
    for every [r] in [[1, 14]]. *)
Theorem reached_rounds_nonincreasing (a : arch) (d : Data) (L0 : labels_t)
    (ops : list (nat * Z * Z)) (t : nat) (r : Z) :
  ops_valid d ops = true -> isTrip d t = true -> 1 <= r <= 14 ->
  getPosition (run_updates a d (clear d L0) ops) t (r + 1) <=
  getPosition (run_updates a d (clear d L0) ops) t r.
Proof.
  intros Hv _ Hr. destruct (reachable_inv a d L0 ops Hv) as [_ HM].
  unfold getPosition.
  replace (Z.to_nat (r + 1 - 1)) with (S (Z.to_nat (r - 1))) by lia.
  apply HM. lia.
Qed.

Lemma reached_rounds_nonincreasing_witness :
  (ops_valid route3 [(0%nat, 2, 3); (1%nat, 1, 2)] = true /\
   isTrip route3 1 = true /\ 1 <= 2 <= 14) /\
  getPosition (run_updates ARM route3 (clear route3 []) [(0%nat, 2, 3); (1%nat, 1, 2)]) 1 3 <=
  getPosition (run_updates ARM route3 (clear route3 []) [(0%nat, 2, 3); (1%nat, 1, 2)]) 1 2.
Proof.
  split; [repeat split; (reflexivity || lia)|].
  apply (reached_rounds_nonincreasing ARM route3 [] _ 1 2); (reflexivity || lia).
Defined.

(* ------------------------------------------------------------------------- *)
(** ** The no-op case of [update] (C10) *)

(** C10.  When the stored position of [(t, r)] is already at most [p],
    [update(t, p, r)] returns the state unchanged: no trip and no lane is
    modified. *)
Theorem update_noop (a : arch) (d : Data) (L : labels_t) (t : nat) (p r : Z) :
  getPosition L t r <= p -> update a d L t p r = L.
Proof.
  intros H. unfold update.
  destruct (firstTripOfRoute d (routeOfTrip d t + 1) - t)%nat as [|f]; simpl;
    [reflexivity|].
  replace (getPosition L t r >? p) with false
    by (symmetry; rewrite Z.gtb_ltb; apply Z.ltb_ge; exact H).
  now rewrite andb_false_r.
Qed.

Lemma update_noop_witness :
  let L := run_updates X86 route3 (clear route3 []) [(0%nat, 2, 1)] in
  getPosition L 1 1 <= 3 /\ update X86 route3 L 1 3 1 = L.
Proof.
  split; [vm_compute; discriminate|].
  apply update_noop. vm_compute. discriminate.
Defined.

(* ------------------------------------------------------------------------- *)
(** ** Early exit against the scan of the whole route (C2) *)

Lemma update_early_exit_gen (a : arch) (d : Data) (L : labels_t) (t : nat)
    (p r : Z) :
  data_wf d = true -> isTrip d t = true -> 0 <= p <= 255 -> 1 <= r <= 15 ->
  bytes L -> round_mono L -> trip_order d L ->
  let tn := firstTripOfRoute d (routeOfTrip d t + 1) in
  let FILTER := simd_max_u8 (simd_set1_u8 p) (makeMask a r) in
  length (update a d L t p r) = length (filter_all (tn - t) t FILTER L) /\
  forall j i, (i < 16)%nat ->
    get_label (update a d L t p r) j i =
    get_label (filter_all (tn - t) t FILTER L) j i.
Proof.
  intros Hwf Ht Hp Hr HB HM HO tn F.
  destruct (data_wf_spec d Hwf) as (Hrange & _ & _).
  pose proof Ht as Ht'. unfold isTrip in Ht'. apply Nat.ltb_lt in Ht'.
  destruct (Hrange t Ht') as (Hft & Hte & _).
  destruct (update_shape a d L t p r) as (k & Hk & Hin & Hex & Hlen & Hget).
  destruct (filter_all_shape (tn - t) t F L) as [Hlen' Hget'].
  split; [congruence|]. intros j i Hi.
  rewrite Hget, Hget'. fold tn in Hk, Hin, Hex.
  destruct (decide ((t <= j < k)%nat /\ _)) as [H1|H1];
  destruct (decide ((t <= j < t + (tn - t))%nat /\ _)) as [H2|H2];
    try reflexivity; try lia.
  (* [j] lies after the exit point [k], which is a trip of the route *)
  assert (Hkj : (k <= j < tn)%nat) by lia.
  specialize (Hex ltac:(lia)). unfold getPosition in Hex.
  pose proof (trip_order_chain d L t k j i Hwf HO Ht ltac:(lia) ltac:(lia) Hi).
  unfold F. rewrite min_filter_lane by (try apply HB; lia).
  destruct (Z.of_nat i <? r - 1) eqn:E; [reflexivity|]. apply Z.ltb_ge in E.
  pose proof (round_mono_le L k (Z.to_nat (r - 1)) i HM ltac:(lia)). lia.
Qed.

(** C2 (counterexample).  After the direct accessor sets trip 0 to 2 at
    round 1, [update(0, 2, 1)] stops at trip 0 and trip 1 keeps 5 at round 1,
    whereas the filter applied to all three trips of the route lowers it to 2. *)
Lemma C2_counterexample :
  let L := setPosition (clear route3 []) 0 1 2 in
  let FILTER := simd_max_u8 (simd_set1_u8 2) (makeMask ARM 1) in
  getPosition (update ARM route3 L 0 2 1) 1 1 = 5 /\
  getPosition (filter_all 3 0 FILTER L) 1 1 = 2.
Proof. vm_compute. split; reflexivity. Qed.

(** C2 (amended).  In every state reached from [clear()] by valid [update]
    calls, on a well-formed timetable, [update(t0, p, r)] leaves exactly the
    stored values that applying the lane-wise minimum with its [FILTER] to
    every trip of [[t0, tn)], [tn] the end of the route of [t0], would leave,
    wherever the early exit stops. *)
Theorem update_early_exit_equiv (a : arch) (d : Data) (L0 : labels_t)
    (ops : list (nat * Z * Z)) (t0 : nat) (p r : Z) :
  data_wf d = true -> ops_valid d ops = true -> isTrip d t0 = true ->
  0 <= p <= 255 -> 1 <= r <= 15 ->
  let L := run_updates a d (clear d L0) ops in
  let tn := firstTripOfRoute d (routeOfTrip d t0 + 1) in
  let FILTER := simd_max_u8 (simd_set1_u8 p) (makeMask a r) in
  length (update a d L t0 p r) = length (filter_all (tn - t0) t0 FILTER L) /\
  forall j i, (i < 16)%nat ->
    get_label (update a d L t0 p r) j i =
    get_label (filter_all (tn - t0) t0 FILTER L) j i.
Proof.
  intros Hwf Hv Ht Hp Hr L.
  destruct (reachable_inv a d L0 ops Hv) as [HB HM].
  apply update_early_exit_gen; auto.
  apply run_trip_order; auto using clear_bytes, clear_round_mono, clear_trip_order.
Qed.

Lemma update_early_exit_equiv_witness :
  (data_wf route3 = true /\ ops_valid route3 [(1%nat, 2, 1)] = true /\
   isTrip route3 0 = true /\ 0 <= 3 <= 255 /\ 1 <= 2 <= 15) /\
  let L := run_updates ARM route3 (clear route3 []) [(1%nat, 2, 1)] in
  let FILTER := simd_max_u8 (simd_set1_u8 3) (makeMask ARM 2) in
  length (update ARM route3 L 0 3 2) = length (filter_all (3 - 0) 0 FILTER L) /\
  forall j i, (i < 16)%nat ->
    get_label (update ARM route3 L 0 3 2) j i =
    get_label (filter_all (3 - 0) 0 FILTER L) j i.
Proof.
  split; [repeat split; (reflexivity || lia)|].
  apply (update_early_exit_equiv ARM route3 [] [(1%nat, 2, 1)] 0 3 2);
    (reflexivity || lia).
Defined.

(* ------------------------------------------------------------------------- *)
(** ** [clear()] and the sentinel (C4) *)

(** C4 (counterexample).  A trip with 256 stops: the [u_int8_t] sentinel is
    256 mod 256 = 0, so after [clear()] [alreadyReached(0, 0, 1)] already
    holds although 0 is below the stop count. *)
Lemma C4_counterexample :
  getPosition (clear long_trip []) 0 1 = 0 /\
  Z.of_nat (numberOfStopsInTrip long_trip 0) = 256 /\
  alreadyReached (clear long_trip []) 0 0 1 = true.
Proof. vm_compute. repeat split. Qed.

(** C4 (amended).  After [clear()] every lane of a valid trip holds its stop
    count truncated to [u_int8_t] (stop count mod 256); when the trip has at
    most 255 stops the position at every round in [[1, 15]] is the stop count
    and [alreadyReached(t, p, r)] is false for every [p] below it. *)
Theorem clear_sentinel (d : Data) (L : labels_t) (t : nat) :
  isTrip d t = true ->
  (forall i, get_label (clear d L) t i =
             Z.of_nat (numberOfStopsInTrip d t) mod 256) /\
  ((numberOfStopsInTrip d t < 256)%nat ->
   forall r, 1 <= r <= 15 ->
     getPosition (clear d L) t r = Z.of_nat (numberOfStopsInTrip d t) /\
     forall p, 0 <= p < Z.of_nat (numberOfStopsInTrip d t) ->
       alreadyReached (clear d L) t p r = false).
Proof.
  intros Ht. unfold isTrip in Ht. apply Nat.ltb_lt in Ht.
  assert (Hl : forall i, get_label (clear d L) t i =
                         Z.of_nat (numberOfStopsInTrip d t) mod 256).
  { intros i. unfold clear. rewrite get_label_defaultLabels.
    destruct (decide _); [reflexivity | lia]. }
  split; [exact Hl|]. intros Hs r Hr.
  assert (Hp : getPosition (clear d L) t r = Z.of_nat (numberOfStopsInTrip d t)).
  { unfold getPosition. rewrite Hl. apply Z.mod_small. lia. }
  split; [exact Hp|]. intros p Hpl. unfold alreadyReached. rewrite Hp.
  apply Z.leb_gt. lia.
Qed.

Lemma clear_sentinel_witness :
  isTrip route3 2 = true /\
  (forall i, get_label (clear route3 []) 2 i =
             Z.of_nat (numberOfStopsInTrip route3 2) mod 256) /\
  ((numberOfStopsInTrip route3 2 < 256)%nat ->
   forall r, 1 <= r <= 15 ->
     getPosition (clear route3 []) 2 r = Z.of_nat (numberOfStopsInTrip route3 2) /\
     forall p, 0 <= p < Z.of_nat (numberOfStopsInTrip route3 2) ->
       alreadyReached (clear route3 []) 2 p r = false).
Proof.
  split; [reflexivity|]. apply (clear_sentinel route3 [] 2). reflexivity.
Defined.

(* ------------------------------------------------------------------------- *)
(** ** The slots of a label vector (C5) *)

(** C5 (counterexample).  Slot 0 is the slot of round 1: two states that
    differ only in slot 0 answer [alreadyReached(0, 0, 1)] differently, and
    [update(0, 2, 1)] writes slot 0. *)
Lemma C5_counterexample :
  alreadyReached [fun i => if Nat.eqb i 0 then 0 else 5] 0 0 1 = true /\
  alreadyReached [fun _ => 5] 0 0 1 = false /\
  get_label (clear route3 []) 0 0%nat = 5 /\
  get_label (update ARM route3 (clear route3 []) 0 2 1) 0 0%nat = 2.
Proof. vm_compute. repeat split. Qed.

(** C5 (amended).  Round [r] in [[1, 15]] reads and writes slot [r - 1]: the
    rounds occupy the distinct slots 0..14, slot 15 is never read by
    [alreadyReached] or the accessor, and [update] with round [r] writes no
    slot below [r - 1]. *)
Theorem round_slots (a : arch) (d : Data) (L : labels_t) (t : nat) (p r : Z) :
  1 <= r <= 15 -> 0 <= p <= 255 -> bytes L ->
  getPosition L t r = get_label L t (Z.to_nat (r - 1)) /\
  (Z.to_nat (r - 1) < 15)%nat /\
  (forall r2, 1 <= r2 <= 15 -> Z.to_nat (r - 1) = Z.to_nat (r2 - 1) -> r = r2) /\
  (forall L' : labels_t, (forall j i, i <> 15%nat -> get_label L' j i = get_label L j i) ->
     alreadyReached L' t p r = alreadyReached L t p r) /\
  (forall j i, Z.of_nat i < r - 1 ->
     get_label (update a d L t p r) j i = get_label L j i).
Proof.
  intros Hr Hp HB. split; [reflexivity|]. split; [lia|]. split.
  { intros r2 Hr2 He. lia. }
  split.
  - intros L' HL'. unfold alreadyReached, getPosition. rewrite HL' by lia.
    reflexivity.
  - intros j i Hi.
    destruct (update_shape a d L t p r) as (k & _ & _ & _ & _ & Hget).
    rewrite Hget. destruct (decide _); [|reflexivity].
    rewrite min_filter_lane by (try apply HB; lia).
    replace (Z.of_nat i <? r - 1) with true by (symmetry; apply Z.ltb_lt; lia).
    reflexivity.
Qed.

Lemma round_slots_witness :
  (1 <= 3 <= 15 /\ 0 <= 1 <= 255 /\ bytes (clear route3 [])) /\
  getPosition (clear route3 []) 0 3 = get_label (clear route3 []) 0 (Z.to_nat (3 - 1)) /\
  (Z.to_nat (3 - 1) < 15)%nat /\
  (forall r2, 1 <= r2 <= 15 -> Z.to_nat (3 - 1) = Z.to_nat (r2 - 1) -> 3 = r2) /\
  (forall L' : labels_t,
     (forall j i, i <> 15%nat -> get_label L' j i = get_label (clear route3 []) j i) ->
     alreadyReached L' 0 1 3 = alreadyReached (clear route3 []) 0 1 3) /\
  (forall j i, Z.of_nat i < 3 - 1 ->
     get_label (update X86 route3 (clear route3 []) 0 1 3) j i =
     get_label (clear route3 []) j i).
Proof.
  split; [split; [lia | split; [lia | apply clear_bytes]]|].
  apply (round_slots X86 route3 (clear route3 []) 0 1 3);
    [lia | lia | apply clear_bytes].
Defined.

(* ------------------------------------------------------------------------- *)
(** ** Lane-wise minimum and maximum of [SIMD16u] (C6) *)

Lemma min_eq_mask (x y : Z) :
  (if Z.min x y =? x then 65535 else 0) = (if x <=? y then 65535 else 0).
Proof.
  destruct (Z.leb_spec x y), (Z.eqb_spec (Z.min x y) x); lia.
Qed.

Lemma max_eq_mask (x y : Z) :
  (if Z.max x y =? x then 65535 else 0) = (if y <=? x then 65535 else 0).
Proof.
  destruct (Z.leb_spec y x), (Z.eqb_spec (Z.max x y) x); lia.
Qed.

(** C6.  On both backends, [min(o)] / [minmask(o)] sets every lane of the
    receiver to [min(a_i, b_i)] and returns 0xFFFF exactly on the lanes with
    [a_i <= b_i], 0 elsewhere; [max(o)] / [maxmask(o)] likewise with [max]
    and [a_i >= b_i]. *)
Theorem simd16_minmax_mask :
  (forall (v o : SIMD16u.reg) (i : nat),
     fst (SIMD16u.min_x86 v o) i = Z.min (v i) (o i) /\
     snd (SIMD16u.min_x86 v o) i = (if v i <=? o i then 65535 else 0) /\
     fst (SIMD16u.max_x86 v o) i = Z.max (v i) (o i) /\
     snd (SIMD16u.max_x86 v o) i = (if o i <=? v i then 65535 else 0)) /\
  (forall (v o : SIMD16u.Holder) (i : nat),
     SIMD16u.arr (fst (SIMD16u.minmask v o)) i =
       Z.min (SIMD16u.arr v i) (SIMD16u.arr o i) /\
     SIMD16u.arr (snd (SIMD16u.minmask v o)) i =
       (if SIMD16u.arr v i <=? SIMD16u.arr o i then 65535 else 0) /\
     SIMD16u.arr (fst (SIMD16u.maxmask v o)) i =
       Z.max (SIMD16u.arr v i) (SIMD16u.arr o i) /\
     SIMD16u.arr (snd (SIMD16u.maxmask v o)) i =
       (if SIMD16u.arr o i <=? SIMD16u.arr v i then 65535 else 0)).
Proof.
  split.
  - intros v o i. cbn [fst snd SIMD16u.min_x86 SIMD16u.max_x86].
    unfold SIMD16u.cmpeq_epi16.
    split; [reflexivity|]. split; [apply min_eq_mask|].
    split; [reflexivity|apply max_eq_mask].
  - intros v o i. unfold SIMD16u.arr.
    cbn [fst snd SIMD16u.minmask SIMD16u.maxmask SIMD16u.lo SIMD16u.hi].
    unfold SIMD16u.vminq_u16, SIMD16u.vmaxq_u16, SIMD16u.vceqq_u16.
    destruct (i <? 8)%nat;
      (split; [reflexivity|]; split; [apply min_eq_mask|];
       split; [reflexivity|apply max_eq_mask]).
Qed.

(* ------------------------------------------------------------------------- *)
(** ** [aligned_allocator::allocate] (C7, C8) *)

Module AllocatorProofs.
Import AlignedAllocator.

Lemma wrap_small (x : Z) : 0 <= x < 2 ^ 64 -> wrap x = x.
Proof. intros H. unfold wrap. apply Z.mod_small. exact H. Qed.

Lemma max_size_iff (s n : Z) : 0 < s -> (n <= max_size s <-> n * s < 2 ^ 64).
Proof.
  intros Hs. unfold max_size.
  replace (wrap (0 - 1)) with (2 ^ 64 - 1) by reflexivity.
  pose proof (Z.div_mod (2 ^ 64 - 1) s ltac:(lia)) as Hd.
  pose proof (Z.mod_pos_bound (2 ^ 64 - 1) s Hs) as Hm.
  split; intros H; nia.
Qed.


End AllocatorProofs.

Lemma round_up_div (k total : Z) :
  0 <= k <= 64 ->
  AlignedAllocator.round_up (2 ^ k) total =
  AlignedAllocator.wrap (total + 2 ^ k - 1) / 2 ^ k * 2 ^ k.
Proof.
  intros Hk.
  assert (HA : 0 < 2 ^ k) by (apply Z.pow_pos_nonneg; lia).
  assert (HA64 : 2 ^ k <= 2 ^ 64) by (apply Z.pow_le_mono_r; lia).
  unfold AlignedAllocator.round_up.
  set (y := AlignedAllocator.wrap (total + 2 ^ k - 1)).
  assert (Hy : 0 <= y < 2 ^ 64)
    by (unfold y, AlignedAllocator.wrap; apply Z.mod_pos_bound; lia).
  rewrite (AllocatorProofs.wrap_small (2 ^ k - 1)) by lia.
  assert (Hones : 2 ^ k - 1 = Z.ones k) by (rewrite Z.ones_equiv; lia).
  rewrite Hones.
  transitivity (Z.land y (Z.lnot (Z.ones k))).
  - apply Z.bits_inj'. intros m Hm. rewrite !Z.land_spec.
    destruct (Z.lt_ge_cases m 64) as [Hlt|Hge].
    + unfold AlignedAllocator.wrap. rewrite Z.mod_pow2_bits_low by lia.
      reflexivity.
    + unfold AlignedAllocator.wrap. rewrite Z.mod_pow2_bits_high by lia.
      rewrite <- (AllocatorProofs.wrap_small y) by lia.
      unfold AlignedAllocator.wrap. rewrite Z.mod_pow2_bits_high by lia.
      reflexivity.
  - rewrite <- Z.ldiff_land, Z.ldiff_ones_r by lia.
    rewrite Z.shiftr_div_pow2, Z.shiftl_mul_pow2 by lia. reflexivity.
Qed.





(** C8.  [allocate(0)] returns [NULL]; [allocate(n)] throws [length_error]
    exactly when [n > 0] and [n * sizeof(T)] overflows [size_t], and throws
    [bad_alloc] exactly when [n > 0], the size fits, and the platform
    allocator returns [NULL] for the request it is given. *)
Theorem allocate_errors (a : arch) (s A : Z) (plat : AlignedAllocator.platform)
    (n : Z) :
  0 < s -> 0 <= n < 2 ^ 64 ->
  (n = 0 -> AlignedAllocator.allocate a s A plat n = AlignedAllocator.AllocNull) /\
  (AlignedAllocator.allocate a s A plat n = AlignedAllocator.LengthError <->
   0 < n /\ 2 ^ 64 <= n * s) /\
  (AlignedAllocator.allocate a s A plat n = AlignedAllocator.BadAlloc <->
   0 < n /\ n * s < 2 ^ 64 /\
   AlignedAllocator.platform_alloc a plat A (AlignedAllocator.byte_total s n)
     (AlignedAllocator.round_up A (AlignedAllocator.byte_total s n)) = None).
Proof.
  intros Hs Hn. unfold AlignedAllocator.allocate.
  pose proof (AllocatorProofs.max_size_iff s n Hs) as Hmax.
  split; [intros ->; reflexivity|].
  destruct (Z.eqb_spec n 0) as [->|Hn0].
  { split; split; try discriminate; lia. }
  destruct (n >? AlignedAllocator.max_size s) eqn:Hgt.
  - rewrite Z.gtb_ltb in Hgt. apply Z.ltb_lt in Hgt.
    assert (Hov : 2 ^ 64 <= n * s).
    { destruct (Z.lt_ge_cases (n * s) (2 ^ 64)) as [H|H]; [|exact H].
      apply Hmax in H. lia. }
    split; split.
    + intros _. lia.
    + reflexivity.
    + discriminate.
    + intros (_ & H & _). lia.
  - rewrite Z.gtb_ltb in Hgt. apply Z.ltb_ge in Hgt.
    assert (Hfit : n * s < 2 ^ 64) by (apply Hmax; exact Hgt).
    destruct (AlignedAllocator.platform_alloc _ _ _ _ _) eqn:Hp;
      split; split.
    + discriminate.
    + intros (_ & H). lia.
    + discriminate.
    + intros (_ & _ & H). discriminate.
    + discriminate.
    + intros (_ & H). lia.
    + intros _. split; [lia | split; [exact Hfit | reflexivity]].
    + reflexivity.
Qed.

Lemma allocate_errors_witness :
  (0 < 16 /\ 0 <= 2 ^ 62 < 2 ^ 64) /\
  let r := AlignedAllocator.allocate X86 16 16 (fun _ _ => None) (2 ^ 62) in
  (2 ^ 62 = 0 -> r = AlignedAllocator.AllocNull) /\
  (r = AlignedAllocator.LengthError <-> 0 < 2 ^ 62 /\ 2 ^ 64 <= 2 ^ 62 * 16) /\
  (r = AlignedAllocator.BadAlloc <->
   0 < 2 ^ 62 /\ 2 ^ 62 * 16 < 2 ^ 64 /\
   AlignedAllocator.platform_alloc X86 (fun _ _ => None) 16
     (AlignedAllocator.byte_total 16 (2 ^ 62))
     (AlignedAllocator.round_up 16 (AlignedAllocator.byte_total 16 (2 ^ 62))) = None).
Proof.
  split; [split; lia|].
  apply (allocate_errors X86 16 16 (fun _ _ => None) (2 ^ 62)); lia.
Defined.

(* ========================================================================= *)
(** * Further properties of the index *)

(** [makeMask(round)]: the loop of the ARM path and the [MAX_MASKS] table of
    the x86 path build the same mask for every valid round, lane by lane,
    and every lane is 0x00 or 0xFF. *)
Theorem makeMask_backends_agree (round : Z) (i : nat) :
  1 <= round <= 15 -> (i < 16)%nat ->
  makeMask ARM round i = makeMask X86 round i /\
  (makeMask ARM round i = 0 \/ makeMask ARM round i = 255).
Proof.
  intros Hr Hi. rewrite !makeMask_lane by assumption.
  split; [reflexivity|]. destruct (Z.of_nat i <? round - 1); auto.
Qed.

Lemma makeMask_backends_agree_witness :
  (1 <= 7 <= 15 /\ (3 < 16)%nat) /\
  makeMask ARM 7 3%nat = makeMask X86 7 3%nat /\
  (makeMask ARM 7 3%nat = 0 \/ makeMask ARM 7 3%nat = 255).
Proof. split; [split; lia|]. apply (makeMask_backends_agree 7 3); lia. Defined.

(** [update] never touches a trip outside [[trip, end of its route)]. *)
Theorem update_frame (a : arch) (d : Data) (L : labels_t) (t : nat) (p r : Z)
    (j : nat) :
  (j < t \/ firstTripOfRoute d (routeOfTrip d t + 1) <= j)%nat ->
  get_label (update a d L t p r) j = get_label L j.
Proof.
  intros Hj. destruct (update_shape a d L t p r) as (k & Hk & _ & _ & _ & Hget).
  rewrite Hget. destruct (decide _); [lia | reflexivity].
Qed.

Lemma update_frame_witness :
  let L := run_updates ARM route3 (clear route3 []) [(2%nat, 1, 1)] in
  (1 < 2 \/ firstTripOfRoute route3 (routeOfTrip route3 2 + 1) <= 1)%nat /\
  get_label (update ARM route3 L 2 0 3) 1 = get_label L 1.
Proof. split; [left; lia|]. apply update_frame. left; lia. Defined.

Lemma update_stops_at_start (a : arch) (d : Data) (L : labels_t) (t : nat) (p r : Z) :
  getPosition L t r <= p -> update a d L t p r = L.
Proof.
  intros H. unfold update.
  destruct (firstTripOfRoute d (routeOfTrip d t + 1) - t)%nat as [|f]; simpl;
    [reflexivity|].
  replace (getPosition L t r >? p) with false
    by (symmetry; rewrite Z.gtb_ltb; apply Z.ltb_ge; exact H).
  now rewrite andb_false_r.
Qed.

(** Repeating an [update] changes nothing: after [update(t, p, r)] the trip is
    at most [p] at round [r], so the second call stops at once. *)
Theorem update_idempotent (a : arch) (d : Data) (L : labels_t) (t : nat) (p r : Z) :
  data_wf d = true -> isTrip d t = true -> 0 <= p <= 255 -> 1 <= r <= 15 ->
  update a d (update a d L t p r) t p r = update a d L t p r.
Proof.
  intros Hwf Ht Hp Hr. apply update_stops_at_start.
  destruct (data_wf_spec d Hwf) as (Hrange & _ & _).
  unfold isTrip in Ht. apply Nat.ltb_lt in Ht.
  destruct (Hrange t Ht) as (_ & Hte & _).
  destruct (update_shape a d L t p r) as (k & Hk & _ & Hex & _ & Hget).
  unfold getPosition. rewrite Hget. destruct (decide _) as [_|Hn].
  - unfold simd_min_u8. rewrite filter_lane by lia.
    replace (Z.of_nat (Z.to_nat (r - 1)) <? r - 1) with false
      by (symmetry; apply Z.ltb_ge; lia). lia.
  - destruct (decide (t < length L)%nat) as [Hl|Hl].
    + assert (k = t) by lia. subst k. apply Hex. exact Hte.
    + unfold get_label. rewrite lookup_ge_None_2 by lia. lia.
Qed.

Lemma update_idempotent_witness :
  (data_wf route3 = true /\ isTrip route3 1 = true /\ 0 <= 3 <= 255 /\ 1 <= 2 <= 15) /\
  update X86 route3 (update X86 route3 (clear route3 []) 1 3 2) 1 3 2 =
  update X86 route3 (clear route3 []) 1 3 2.
Proof.
  split; [repeat split; (reflexivity || lia)|].
  apply update_idempotent; (reflexivity || lia).
Defined.

Lemma reachable_trip_order (a : arch) (d : Data) (L0 : labels_t)
    (ops : list (nat * Z * Z)) :
  data_wf d = true -> ops_valid d ops = true ->
  trip_order d (run_updates a d (clear d L0) ops).
Proof.
  intros Hwf Hv.
  apply run_trip_order; auto using clear_bytes, clear_round_mono, clear_trip_order.
Qed.

Lemma reachable_length (a : arch) (d : Data) (L0 : labels_t)
    (ops : list (nat * Z * Z)) :
  length (run_updates a d (clear d L0) ops) = numberOfTrips d.
Proof. rewrite run_length. apply length_defaultLabels. Qed.

(** In every state reached from [clear()], [update(t, p, r)] makes
    [alreadyReached(j, p, r')] true for every trip [j] from [t] to the end of
    its route and every round [r'] in [[r, 15]], also for the trips beyond the
    point where the scan stopped. *)
Theorem update_reaches_route (a : arch) (d : Data) (L0 : labels_t)
    (ops : list (nat * Z * Z)) (t : nat) (p r : Z) :
  data_wf d = true -> ops_valid d ops = true -> isTrip d t = true ->
  0 <= p <= 255 -> 1 <= r <= 15 ->
  let L := run_updates a d (clear d L0) ops in
  forall j r', (t <= j < firstTripOfRoute d (routeOfTrip d t + 1))%nat ->
    r <= r' <= 15 -> alreadyReached (update a d L t p r) j p r' = true.
Proof.
  intros Hwf Hv Ht Hp Hr L j r' Hj Hr'.
  destruct (reachable_inv a d L0 ops Hv) as [HB HM].
  pose proof (reachable_trip_order a d L0 ops Hwf Hv) as HO.
  pose proof (reachable_length a d L0 ops) as Hlen. fold L in HB, HM, HO, Hlen.
  destruct (data_wf_spec d Hwf) as (Hrange & _ & _).
  pose proof Ht as Ht'. unfold isTrip in Ht'. apply Nat.ltb_lt in Ht'.
  destruct (Hrange t Ht') as (Hft & Hte & Hen).
  destruct (update_shape a d L t p r) as (k & Hk & Hin & Hex & _ & Hget).
  unfold alreadyReached, getPosition. rewrite Hget. apply Z.leb_le.
  destruct (decide _) as [_|Hn].
  - rewrite min_filter_lane by (try apply HB; lia).
    destruct (_ <? _) eqn:E; [apply Z.ltb_lt in E; lia | lia].
  - assert (Hkj : (k <= j)%nat) by lia.
    specialize (Hex ltac:(lia)). unfold getPosition in Hex.
    pose proof (trip_order_chain d L t k j (Z.to_nat (r' - 1)) Hwf HO Ht
                  ltac:(lia) ltac:(lia) ltac:(lia)).
    pose proof (round_mono_le L k (Z.to_nat (r - 1)) (Z.to_nat (r' - 1)) HM
                  ltac:(lia)). lia.
Qed.

Lemma update_reaches_route_witness :
  (data_wf route3 = true /\ ops_valid route3 [(2%nat, 1, 1)] = true /\
   isTrip route3 0 = true /\ 0 <= 2 <= 255 /\ 1 <= 3 <= 15) /\
  let L := run_updates ARM route3 (clear route3 []) [(2%nat, 1, 1)] in
  forall j r', (0 <= j < firstTripOfRoute route3 (routeOfTrip route3 0 + 1))%nat ->
    3 <= r' <= 15 -> alreadyReached (update ARM route3 L 0 2 3) j 2 r' = true.
Proof.
  split; [repeat split; (reflexivity || lia)|].
  apply (update_reaches_route ARM route3 [] [(2%nat, 1, 1)] 0 2 3);
    (reflexivity || lia).
Defined.

(** In every state reached from [clear()], a positive answer of
    [alreadyReached(t, p, r)] carries over to every later round and every
    later trip of the same route. *)
Theorem reached_dominates (a : arch) (d : Data) (L0 : labels_t)
    (ops : list (nat * Z * Z)) (t : nat) (p r : Z) :
  data_wf d = true -> ops_valid d ops = true -> isTrip d t = true -> 1 <= r ->
  let L := run_updates a d (clear d L0) ops in
  alreadyReached L t p r = true ->
  forall j r', (t <= j < firstTripOfRoute d (routeOfTrip d t + 1))%nat ->
    r <= r' <= 15 -> alreadyReached L j p r' = true.
Proof.
  intros Hwf Hv Ht Hr L Hreach j r' Hj Hr'.
  destruct (reachable_inv a d L0 ops Hv) as [_ HM].
  pose proof (reachable_trip_order a d L0 ops Hwf Hv) as HO.
  fold L in HM, HO.
  destruct (data_wf_spec d Hwf) as (Hrange & _ & _).
  pose proof Ht as Ht'. unfold isTrip in Ht'. apply Nat.ltb_lt in Ht'.
  destruct (Hrange t Ht') as (Hft & _ & _).
  unfold alreadyReached, getPosition in *. apply Z.leb_le in Hreach.
  apply Z.leb_le.
  pose proof (trip_order_chain d L t t j (Z.to_nat (r' - 1)) Hwf HO Ht
                ltac:(lia) ltac:(lia) ltac:(lia)).
  pose proof (round_mono_le L t (Z.to_nat (r - 1)) (Z.to_nat (r' - 1)) HM
                ltac:(lia)). lia.
Qed.

Lemma reached_dominates_witness :
  (data_wf route3 = true /\ ops_valid route3 [(0%nat, 2, 2)] = true /\
   isTrip route3 0 = true /\ 1 <= 2) /\
  let L := run_updates X86 route3 (clear route3 []) [(0%nat, 2, 2)] in
  (alreadyReached L 0 2 2 = true ->
   forall j r', (0 <= j < firstTripOfRoute route3 (routeOfTrip route3 0 + 1))%nat ->
     2 <= r' <= 15 -> alreadyReached L j 2 r' = true).
Proof.
  split; [repeat split; (reflexivity || lia)|].
  apply (reached_dominates X86 route3 [] [(0%nat, 2, 2)] 0 2 2);
    (reflexivity || lia).
Defined.

(** Under the invariants, [update] is the lane-wise minimum with [FILTER] over
    the whole route extent [[t, end)]. *)
Lemma update_lanes (a : arch) (d : Data) (L : labels_t) (t : nat) (p r : Z) :
  data_wf d = true -> isTrip d t = true -> 0 <= p <= 255 -> 1 <= r <= 15 ->
  bytes L -> round_mono L -> trip_order d L ->
  length (update a d L t p r) = length L /\
  forall j i, (i < 16)%nat ->
    get_label (update a d L t p r) j i =
    if decide ((t <= j < firstTripOfRoute d (routeOfTrip d t + 1))%nat /\
               (j < length L)%nat)
    then Z.min (get_label L j i) (if Z.of_nat i <? r - 1 then 255 else p)
    else get_label L j i.
Proof.
  intros Hwf Ht Hp Hr HB HM HO.
  destruct (update_early_exit_gen a d L t p r Hwf Ht Hp Hr HB HM HO)
    as [Hlen Heq].
  destruct (filter_all_shape (firstTripOfRoute d (routeOfTrip d t + 1) - t) t
              (simd_max_u8 (simd_set1_u8 p) (makeMask a r)) L) as [Hlen' Hget'].
  destruct (data_wf_spec d Hwf) as (Hrange & _ & _).
  pose proof Ht as Ht'. unfold isTrip in Ht'. apply Nat.ltb_lt in Ht'.
  destruct (Hrange t Ht') as (_ & Hte & _).
  split; [congruence|]. intros j i Hi. rewrite Heq by exact Hi. rewrite Hget'.
  repeat destruct (decide _); try lia; try reflexivity.
  unfold simd_min_u8. rewrite filter_lane by lia. reflexivity.
Qed.

(** In every state reached from [clear()], two [update] calls commute: both
    orders leave the same stored values. *)
Theorem update_commute (a : arch) (d : Data) (L0 : labels_t)
    (ops : list (nat * Z * Z)) (t1 t2 : nat) (p1 p2 r1 r2 : Z) :
  data_wf d = true -> ops_valid d ops = true ->
  ops_valid d [(t1, p1, r1); (t2, p2, r2)] = true ->
  let L := run_updates a d (clear d L0) ops in
  length (update a d (update a d L t1 p1 r1) t2 p2 r2) =
  length (update a d (update a d L t2 p2 r2) t1 p1 r1) /\
  forall j i, (i < 16)%nat ->
    get_label (update a d (update a d L t1 p1 r1) t2 p2 r2) j i =
    get_label (update a d (update a d L t2 p2 r2) t1 p1 r1) j i.
Proof.
  intros Hwf Hv Hv12 L.
  apply ops_valid_cons in Hv12 as (Ht1 & Hp1 & Hr1 & Hv2).
  apply ops_valid_cons in Hv2 as (Ht2 & Hp2 & Hr2 & _).
  destruct (reachable_inv a d L0 ops Hv) as [HB HM].
  pose proof (reachable_trip_order a d L0 ops Hwf Hv) as HO.
  fold L in HB, HM, HO.
  assert (Hinv : forall t p r, isTrip d t = true -> 0 <= p <= 255 -> 1 <= r <= 15 ->
    bytes (update a d L t p r) /\ round_mono (update a d L t p r) /\
    trip_order d (update a d L t p r)).
  { intros t p r Ht Hp Hr.
    split; [apply update_bytes; auto|].
    split; [apply update_round_mono; auto|].
    apply update_trip_order; auto. }
  destruct (Hinv t1 p1 r1 Ht1 Hp1 Hr1) as (HB1 & HM1 & HO1).
  destruct (Hinv t2 p2 r2 Ht2 Hp2 Hr2) as (HB2 & HM2 & HO2).
  destruct (update_lanes a d L t1 p1 r1 Hwf Ht1 Hp1 Hr1 HB HM HO) as [Hl1 Hg1].
  destruct (update_lanes a d L t2 p2 r2 Hwf Ht2 Hp2 Hr2 HB HM HO) as [Hl2 Hg2].
  destruct (update_lanes a d _ t2 p2 r2 Hwf Ht2 Hp2 Hr2 HB1 HM1 HO1) as [Hl12 Hg12].
  destruct (update_lanes a d _ t1 p1 r1 Hwf Ht1 Hp1 Hr1 HB2 HM2 HO2) as [Hl21 Hg21].
  split; [congruence|]. intros j i Hi.
  rewrite Hg12, Hg21, Hg1, Hg2, Hl1, Hl2 by exact Hi.
  repeat destruct (decide _); lia.
Qed.

Lemma update_commute_witness :
  (data_wf route3 = true /\ ops_valid route3 [(1%nat, 3, 1)] = true /\
   ops_valid route3 [(0%nat, 2, 4); (1%nat, 1, 2)] = true) /\
  let L := run_updates ARM route3 (clear route3 []) [(1%nat, 3, 1)] in
  length (update ARM route3 (update ARM route3 L 0 2 4) 1 1 2) =
  length (update ARM route3 (update ARM route3 L 1 1 2) 0 2 4) /\
  forall j i, (i < 16)%nat ->
    get_label (update ARM route3 (update ARM route3 L 0 2 4) 1 1 2) j i =
    get_label (update ARM route3 (update ARM route3 L 1 1 2) 0 2 4) j i.
Proof.
  split; [repeat split; reflexivity|].
  apply (update_commute ARM route3 [] [(1%nat, 3, 1)] 0 1 2 1 4 2); reflexivity.
Defined.

Lemma run_le (a : arch) (d : Data) (L : labels_t) (ops : list (nat * Z * Z)) :
  forall j i, get_label (run_updates a d L ops) j i <= get_label L j i.
Proof.
  revert L. induction ops as [|[[t p] r] ops IH]; intros L j i; simpl; [lia|].
  destruct (update_le a d L t p r) as [_ H]. specialize (H j i).
  specialize (IH (update a d L t p r) j i). lia.
Qed.

(** In every state reached from [clear()], every lane of a valid trip lies
    between 0 and the trip's [u_int8_t] sentinel (stop count mod 256). *)
Theorem reachable_bounds (a : arch) (d : Data) (L0 : labels_t)
    (ops : list (nat * Z * Z)) (t : nat) :
  ops_valid d ops = true -> isTrip d t = true ->
  forall i, (i < 16)%nat ->
    0 <= get_label (run_updates a d (clear d L0) ops) t i <=
    Z.of_nat (numberOfStopsInTrip d t) mod 256.
Proof.
  intros Hv Ht i Hi. destruct (reachable_inv a d L0 ops Hv) as [HB _].
  specialize (HB t i Hi). pose proof (run_le a d (clear d L0) ops t i) as Hle.
  unfold clear at 2 in Hle. rewrite get_label_defaultLabels in Hle.
  unfold isTrip in Ht. apply Nat.ltb_lt in Ht.
  destruct (decide _); [|lia]. unfold simd_set1_u8 in Hle. lia.
Qed.

Lemma reachable_bounds_witness :
  (ops_valid route3 [(0%nat, 2, 2)] = true /\ isTrip route3 1 = true) /\
  forall i, (i < 16)%nat ->
    0 <= get_label (run_updates X86 route3 (clear route3 []) [(0%nat, 2, 2)]) 1 i <=
    Z.of_nat (numberOfStopsInTrip route3 1) mod 256.
Proof.
  split; [split; reflexivity|].
  apply (reachable_bounds X86 route3 [] [(0%nat, 2, 2)] 1); reflexivity.
Defined.

(* ========================================================================= *)
(** * Further properties of [allocate] *)

(** When [sizeof(T)] is a multiple of the power-of-two alignment (as for
    [ReachedElement], 16 bytes at alignment 16), rounding never changes the
    byte size of an accepted request, so both backends ask the platform for
    the same number of bytes. *)
Theorem allocate_exact_multiple (s m k n : Z) (plat : AlignedAllocator.platform) :
  1 <= m -> 0 <= k -> s = m * 2 ^ k -> 0 < n -> n * s < 2 ^ 64 ->
  AlignedAllocator.round_up (2 ^ k) (AlignedAllocator.byte_total s n) =
    AlignedAllocator.byte_total s n /\
  AlignedAllocator.allocate ARM s (2 ^ k) plat n =
  AlignedAllocator.allocate X86 s (2 ^ k) plat n.
Proof.
  intros Hm Hk Hs Hn Hfit.
  assert (HA : 0 < 2 ^ k) by (apply Z.pow_pos_nonneg; lia).
  assert (Hk64 : k < 64).
  { destruct (Z.lt_ge_cases k 64) as [H|H]; [exact H|].
    assert (2 ^ 64 <= 2 ^ k) by (apply Z.pow_le_mono_r; lia). nia. }
  assert (Hsplit : 2 ^ 64 = 2 ^ k * 2 ^ (64 - k))
    by (rewrite <- Z.pow_add_r by lia; f_equal; lia).
  assert (Ht : AlignedAllocator.byte_total s n = n * m * 2 ^ k)
    by (unfold AlignedAllocator.byte_total; rewrite AllocatorProofs.wrap_small; nia).
  assert (Hbound : n * m * 2 ^ k + 2 ^ k - 1 < 2 ^ 64).
  { assert (n * m < 2 ^ (64 - k)) by nia. nia. }
  assert (Hru : AlignedAllocator.round_up (2 ^ k) (n * m * 2 ^ k) = n * m * 2 ^ k).
  { rewrite round_up_div by lia. rewrite AllocatorProofs.wrap_small by nia.
    replace (n * m * 2 ^ k + 2 ^ k - 1) with (n * m * 2 ^ k + (2 ^ k - 1)) by lia.
    rewrite Z.div_add_l by lia. rewrite (Z.div_small (2 ^ k - 1)) by lia. lia. }
  rewrite Ht. split; [exact Hru|].
  unfold AlignedAllocator.allocate, AlignedAllocator.platform_alloc.
  rewrite Ht, Hru. reflexivity.
Qed.

Lemma allocate_exact_multiple_witness :
  (1 <= 1 /\ 0 <= 4 /\ 16 = 1 * 2 ^ 4 /\ 0 < 5 /\ 5 * 16 < 2 ^ 64) /\
  AlignedAllocator.round_up (2 ^ 4) (AlignedAllocator.byte_total 16 5) =
    AlignedAllocator.byte_total 16 5 /\
  AlignedAllocator.allocate ARM 16 (2 ^ 4) (fun _ sz => Some sz) 5 =
  AlignedAllocator.allocate X86 16 (2 ^ 4) (fun _ sz => Some sz) 5.
Proof.
  split; [repeat split; lia|].
  apply (allocate_exact_multiple 16 1 4 5); lia.
Defined.

(** On ARM, when [total + Alignment - 1] overflows [size_t] the rounding wraps
    to 0, and [aligned_alloc] is asked for 0 bytes. *)
Theorem allocate_round_up_wraps (s k n : Z) (plat : AlignedAllocator.platform) :
  0 < s -> 0 <= k <= 64 -> 0 < n -> n * s < 2 ^ 64 ->
  2 ^ 64 <= n * s + 2 ^ k - 1 ->
  AlignedAllocator.allocate ARM s (2 ^ k) plat n =
    match plat (2 ^ k) 0 with
    | None => AlignedAllocator.BadAlloc
    | Some pv => AlignedAllocator.AllocOk pv
    end.
Proof.
  intros Hs Hk Hn Hfit Hov.
  assert (HA : 0 < 2 ^ k) by (apply Z.pow_pos_nonneg; lia).
  assert (HA64 : 2 ^ k <= 2 ^ 64) by (apply Z.pow_le_mono_r; lia).
  assert (Hacc : (n =? 0) = false /\ (n >? AlignedAllocator.max_size s) = false).
  { split; [apply Z.eqb_neq; lia|].
    rewrite Z.gtb_ltb. apply Z.ltb_ge. apply AllocatorProofs.max_size_iff; lia. }
  destruct Hacc as [H0 HL].
  assert (Ht : AlignedAllocator.byte_total s n = n * s)
    by (apply AllocatorProofs.wrap_small; nia).
  assert (Hru : AlignedAllocator.round_up (2 ^ k) (n * s) = 0).
  { rewrite round_up_div by lia. unfold AlignedAllocator.wrap.
    rewrite (Z.mod_eq (n * s + 2 ^ k - 1)) by lia.
    assert (Hq : (n * s + 2 ^ k - 1) / 2 ^ 64 = 1).
    { symmetry. apply Z.div_unique with (r := n * s + 2 ^ k - 1 - 2 ^ 64); lia. }
    rewrite Hq. rewrite Z.div_small by lia. lia. }
  unfold AlignedAllocator.allocate. rewrite H0, HL, Ht, Hru. reflexivity.
Qed.

Lemma allocate_round_up_wraps_witness :
  (0 < 1 /\ 0 <= 4 <= 64 /\ 0 < 2 ^ 64 - 1 /\ (2 ^ 64 - 1) * 1 < 2 ^ 64 /\
   2 ^ 64 <= (2 ^ 64 - 1) * 1 + 2 ^ 4 - 1) /\
  AlignedAllocator.allocate ARM 1 (2 ^ 4) (fun _ sz => Some sz) (2 ^ 64 - 1) =
    match Some 0 with
    | None => AlignedAllocator.BadAlloc
    | Some pv => AlignedAllocator.AllocOk pv
    end.
Proof.
  split; [repeat split; lia|].
  apply (allocate_round_up_wraps 1 4 (2 ^ 64 - 1) (fun _ sz => Some sz)); lia.
Defined.

(* ------------------------------------------------------------------------- *)
(** ** Further properties of [SIMD16u] *)

Module SIMD16uProofs.
Import SIMD16u.

Lemma u16_small x : 0 <= x < 2 ^ 16 -> u16 x = x.
Proof. intros H. unfold u16. apply Z.mod_small. lia. Qed.

(** A 16-bit lane is the sum of its two bytes. *)
Lemma lane_of_bytes x :
  0 <= x < 2 ^ 16 -> byte_of x 0 + byte_of x 1 * 256 = x.
Proof.
  intros H. unfold byte_of.
  change 255 with (Z.ones 8).
  rewrite !Z.land_ones by lia. rewrite Z.shiftr_0_r.
  change (8 * 1) with 8. rewrite Z.shiftr_div_pow2 by lia.
  rewrite (Z.mod_small (x / 2 ^ 8)).
  - change (2 ^ 8) with 256. pose proof (Z.div_mod x 256). lia.
  - split; [apply Z.div_pos; lia|]. apply Z.div_lt_upper_bound; lia.
Qed.

Lemma land_65535 x : 0 <= x < 2 ^ 16 -> Z.land 65535 x = x.
Proof.
  intros H. rewrite Z.land_comm. change 65535 with (Z.ones 16).
  rewrite Z.land_ones by lia. apply Z.mod_small. lia.
Qed.

(** The shift count [bits] in [0, 127] survives the [int16_t] cast and the
    signed low byte read by [vshlq_u16]. *)
Lemma vshl_left a bits i :
  0 <= bits <= 127 ->
  vshlq_u16 a (vdupq_n_s16 (to_s16 bits)) i =
    if 16 <=? bits then 0 else u16 (Z.shiftl (a i) bits).
Proof.
  intros H. unfold vshlq_u16, vdupq_n_s16, to_s16.
  rewrite (Z.mod_small bits (2 ^ 16)) by lia.
  replace (2 ^ 15 <=? bits) with false by (symmetry; apply Z.leb_gt; lia).
  rewrite (Z.mod_small bits 256) by lia.
  replace (128 <=? bits) with false by (symmetry; apply Z.leb_gt; lia).
  replace (0 <=? bits) with true by (symmetry; apply Z.leb_le; lia).
  reflexivity.
Qed.

Lemma vshl_right a bits i :
  0 < bits <= 127 ->
  vshlq_u16 a (vdupq_n_s16 (to_s16 (- bits))) i =
    if 16 <=? bits then 0 else Z.shiftr (a i) bits.
Proof.
  intros H. unfold vshlq_u16, vdupq_n_s16, to_s16.
  assert (H1 : (- bits) mod 2 ^ 16 = 2 ^ 16 - bits).
  { symmetry. apply Z.mod_unique with (q := -1); lia. }
  rewrite H1.
  replace (2 ^ 15 <=? 2 ^ 16 - bits) with true by (symmetry; apply Z.leb_le; lia).
  replace (2 ^ 16 - bits - 2 ^ 16) with (- bits) by lia.
  assert (H2 : (- bits) mod 256 = 256 - bits).
  { symmetry. apply Z.mod_unique with (q := -1); lia. }
  rewrite H2.
  replace (128 <=? 256 - bits) with true by (symmetry; apply Z.leb_le; lia).
  replace (256 - bits - 256) with (- bits) by lia.
  replace (0 <=? - bits) with false by (symmetry; apply Z.leb_gt; lia).
  rewrite Z.opp_involutive. reflexivity.
Qed.

End SIMD16uProofs.

(** Lane-wise [operator-] undoes [operator+] on both backends: the
    wrap-around modulo 2^16 of [_mm256_add_epi16] / [vaddq_u16] is reversed
    by [_mm256_sub_epi16] / [vsubq_u16] on every lane that holds a
    [uint16_t]. *)
Lemma simd16_add_sub (a b : SIMD16u.reg) (c e : SIMD16u.Holder) (i : nat) :
  0 <= a i < 2 ^ 16 -> 0 <= SIMD16u.arr c i < 2 ^ 16 ->
  SIMD16u.sub_x86 (SIMD16u.add_x86 a b) b i = a i /\
  SIMD16u.arr (SIMD16u.sub_arm (SIMD16u.add_arm c e) e) i = SIMD16u.arr c i.
Proof.
  intros Ha Hc.
  assert (Hk : forall x y, 0 <= x < 2 ^ 16 ->
            SIMD16u.u16 (SIMD16u.u16 (x + y) - y) = x).
  { intros x y Hx. unfold SIMD16u.u16.
    rewrite Zminus_mod_idemp_l. replace (x + y - y) with x by lia.
    apply Z.mod_small; lia. }
  split.
  - unfold SIMD16u.sub_x86, SIMD16u.add_x86. apply Hk. exact Ha.
  - unfold SIMD16u.arr in *. simpl.
    unfold SIMD16u.vsubq_u16, SIMD16u.vaddq_u16.
    destruct (i <? 8)%nat; apply Hk; exact Hc.
Qed.

Lemma simd16_add_sub_witness :
  (0 <= 65535 < 2 ^ 16 /\ 0 <= 9 < 2 ^ 16) /\
  SIMD16u.sub_x86 (SIMD16u.add_x86 (fun _ => 65535) (fun _ => 3)) (fun _ => 3) 11%nat
    = 65535 /\
  SIMD16u.arr (SIMD16u.sub_arm
     (SIMD16u.add_arm {| SIMD16u.lo := fun _ => 9; SIMD16u.hi := fun _ => 9 |}
                      {| SIMD16u.lo := fun _ => 65530; SIMD16u.hi := fun _ => 65530 |})
     {| SIMD16u.lo := fun _ => 65530; SIMD16u.hi := fun _ => 65530 |}) 11%nat
  = SIMD16u.arr {| SIMD16u.lo := fun _ => 9; SIMD16u.hi := fun _ => 9 |} 11%nat.
Proof.
  split; [split; lia|].
  apply (simd16_add_sub (fun _ => 65535) (fun _ => 3)
           {| SIMD16u.lo := fun _ => 9; SIMD16u.hi := fun _ => 9 |}
           {| SIMD16u.lo := fun _ => 65530; SIMD16u.hi := fun _ => 65530 |} 11%nat);
    vm_compute; split; congruence.
Defined.

(** [blend(other, mask)] on x86: with every mask lane 0 or 0xFFFF (as the
    masks of [max]/[min] are) and [uint16_t] lanes, the byte blend of
    [_mm256_blendv_epi8] keeps the receiver's lane where the mask is 0xFFFF
    and takes [other]'s lane where it is 0. *)
Lemma simd16_blend_x86 (v other mask : SIMD16u.reg) (i : nat) :
  0 <= v i < 2 ^ 16 -> 0 <= other i < 2 ^ 16 ->
  mask i = 0 \/ mask i = 65535 ->
  SIMD16u.blend_x86 v other mask i = if mask i =? 65535 then v i else other i.
Proof.
  intros Hv Ho Hm. unfold SIMD16u.blend_x86, SIMD16u.blendv_epi8.
  destruct Hm as [Hm | Hm]; rewrite Hm; simpl.
  - apply SIMD16uProofs.lane_of_bytes. exact Ho.
  - apply SIMD16uProofs.lane_of_bytes. exact Hv.
Qed.

Lemma simd16_blend_x86_witness :
  (0 <= 40000 < 2 ^ 16 /\ 0 <= 7 < 2 ^ 16 /\ (0 = 0 \/ 0 = 65535)) /\
  SIMD16u.blend_x86 (fun _ => 40000) (fun _ => 7) (fun _ => 0) 5%nat = 7.
Proof.
  split; [split; [lia | split; [lia | left; reflexivity]]|].
  exact (simd16_blend_x86 (fun _ => 40000) (fun _ => 7) (fun _ => 0) 5%nat
           ltac:(lia) ltac:(lia) (or_introl eq_refl)).
Defined.

(** [blend(other, mask)] on ARM: [vbslq_u16] on both halves selects the same
    way, the receiver's lane where the mask lane is 0xFFFF, [other]'s lane
    where it is 0. *)
Lemma simd16_blend_arm (v other mask : SIMD16u.Holder) (i : nat) :
  0 <= SIMD16u.arr v i < 2 ^ 16 -> 0 <= SIMD16u.arr other i < 2 ^ 16 ->
  SIMD16u.arr mask i = 0 \/ SIMD16u.arr mask i = 65535 ->
  SIMD16u.arr (SIMD16u.blend_arm v other mask) i =
    if SIMD16u.arr mask i =? 65535 then SIMD16u.arr v i else SIMD16u.arr other i.
Proof.
  intros Hv Ho Hm. unfold SIMD16u.arr in *. simpl. unfold SIMD16u.vbslq_u16.
  assert (Hk : forall m a b, 0 <= a < 2 ^ 16 -> 0 <= b < 2 ^ 16 ->
            m = 0 \/ m = 65535 ->
            Z.lor (Z.land m a) (Z.land (Z.lxor m 65535) b) =
              if m =? 65535 then a else b).
  { intros m a b Ha Hb [-> | ->]; simpl.
    - rewrite Z.land_0_l, Z.lor_0_l. apply SIMD16uProofs.land_65535. exact Hb.
    - rewrite Z.land_0_l, Z.lor_0_r. apply SIMD16uProofs.land_65535. exact Ha. }
  destruct (i <? 8)%nat; apply Hk; assumption.
Qed.

Lemma simd16_blend_arm_witness :
  (0 <= 3 < 2 ^ 16 /\ 0 <= 65535 < 2 ^ 16 /\ (65535 = 0 \/ 65535 = 65535)) /\
  SIMD16u.arr (SIMD16u.blend_arm
     {| SIMD16u.lo := fun _ => 3; SIMD16u.hi := fun _ => 3 |}
     {| SIMD16u.lo := fun _ => 65535; SIMD16u.hi := fun _ => 65535 |}
     {| SIMD16u.lo := fun _ => 65535; SIMD16u.hi := fun _ => 65535 |}) 12%nat = 3.
Proof.
  split; [split; [lia | split; [lia | right; reflexivity]]|].
  exact (simd16_blend_arm
           {| SIMD16u.lo := fun _ => 3; SIMD16u.hi := fun _ => 3 |}
           {| SIMD16u.lo := fun _ => 65535; SIMD16u.hi := fun _ => 65535 |}
           {| SIMD16u.lo := fun _ => 65535; SIMD16u.hi := fun _ => 65535 |} 12%nat
           ltac:(vm_compute; split; congruence) ltac:(vm_compute; split; congruence)
           (or_intror eq_refl)).
Defined.

(** [sll(bits)] / [srl(bits)] on x86 and on ARM, for a count in [0, 127]:
    a logical shift of the [uint16_t] lane for counts up to 15 and 0 above,
    on both backends alike (the ARM lane goes through the [int16_t] cast and
    the signed shift of [vshlq_u16]). *)
Lemma simd16_shifts (bits : Z) (v : SIMD16u.reg) (c : SIMD16u.Holder) (i : nat) :
  0 <= bits <= 127 -> 0 <= SIMD16u.arr c i < 2 ^ 16 ->
  SIMD16u.sll_x86 v bits i = (if bits <=? 15 then (v i * 2 ^ bits) mod 2 ^ 16 else 0) /\
  SIMD16u.srl_x86 v bits i = (if bits <=? 15 then v i / 2 ^ bits else 0) /\
  SIMD16u.arr (SIMD16u.sll_arm c bits) i =
    (if bits <=? 15 then (SIMD16u.arr c i * 2 ^ bits) mod 2 ^ 16 else 0) /\
  SIMD16u.arr (SIMD16u.srl_arm c bits) i =
    (if bits <=? 15 then SIMD16u.arr c i / 2 ^ bits else 0).
Proof.
  intros Hb Hc.
  assert (Hneg : (bits <? 0) = false) by (apply Z.ltb_ge; lia).
  assert (Hle : (15 <? bits) = negb (bits <=? 15)).
  { destruct (bits <=? 15) eqn:E; [apply Z.leb_le in E | apply Z.leb_gt in E];
      simpl; [apply Z.ltb_ge | apply Z.ltb_lt]; lia. }
  assert (H16 : (16 <=? bits) = negb (bits <=? 15)).
  { destruct (bits <=? 15) eqn:E; [apply Z.leb_le in E | apply Z.leb_gt in E];
      simpl; [apply Z.leb_gt | apply Z.leb_le]; lia. }
  split; [|split; [|split]].
  - unfold SIMD16u.sll_x86, SIMD16u.u16. rewrite Hneg, Bool.orb_false_l, Hle.
    rewrite Z.shiftl_mul_pow2 by lia. destruct (bits <=? 15); reflexivity.
  - unfold SIMD16u.srl_x86. rewrite Hneg, Bool.orb_false_l, Hle.
    rewrite Z.shiftr_div_pow2 by lia. destruct (bits <=? 15); reflexivity.
  - unfold SIMD16u.arr in *. simpl. unfold SIMD16u.sll_arm. simpl.
    destruct (i <? 8)%nat; rewrite SIMD16uProofs.vshl_left by lia; rewrite H16;
      unfold SIMD16u.u16; rewrite Z.shiftl_mul_pow2 by lia;
      destruct (bits <=? 15); reflexivity.
  - unfold SIMD16u.arr in *. unfold SIMD16u.srl_arm. simpl.
    destruct (Z.eq_dec bits 0) as [-> | Hnz].
    + simpl. destruct (i <? 8)%nat;
        rewrite (SIMD16uProofs.vshl_left _ 0) by lia; simpl;
        rewrite Z.shiftl_0_r, Z.div_1_r; apply SIMD16uProofs.u16_small; exact Hc.
    + destruct (i <? 8)%nat; rewrite SIMD16uProofs.vshl_right by lia; rewrite H16;
        rewrite Z.shiftr_div_pow2 by lia; destruct (bits <=? 15); reflexivity.
Qed.

Lemma simd16_shifts_witness :
  (0 <= 3 <= 127 /\ 0 <= 40000 < 2 ^ 16) /\
  SIMD16u.sll_x86 (fun _ => 40000) 3 9%nat = (40000 * 2 ^ 3) mod 2 ^ 16 /\
  SIMD16u.srl_x86 (fun _ => 40000) 3 9%nat = 40000 / 2 ^ 3 /\
  SIMD16u.arr (SIMD16u.sll_arm
    {| SIMD16u.lo := fun _ => 40000; SIMD16u.hi := fun _ => 40000 |} 3) 9%nat =
    (40000 * 2 ^ 3) mod 2 ^ 16 /\
  SIMD16u.arr (SIMD16u.srl_arm
    {| SIMD16u.lo := fun _ => 40000; SIMD16u.hi := fun _ => 40000 |} 3) 9%nat =
    40000 / 2 ^ 3.
Proof.
  split; [split; lia|].
  pose proof (simd16_shifts 3 (fun _ => 40000)
    {| SIMD16u.lo := fun _ => 40000; SIMD16u.hi := fun _ => 40000 |} 9%nat
    ltac:(lia) ltac:(vm_compute; split; congruence)) as H.
  exact H.
Defined.

(** [store] after [load] from the same buffer leaves the buffer as it was,
    on both backends, and [operator[](i)] of a loaded register reads
    buffer element [i mod 16] (the index is masked with [& 15]). *)
Lemma simd16_store_load (buf : nat -> Z) (k : nat) :
  SIMD16u.store_x86 (SIMD16u.load_x86 buf) buf k = buf k /\
  SIMD16u.store_arm (SIMD16u.load_arm buf) buf k = buf k /\
  SIMD16u.index_x86 (SIMD16u.load_x86 buf) k = buf (k mod 16)%nat /\
  SIMD16u.index_arm (SIMD16u.load_arm buf) k = buf (k mod 16)%nat.
Proof.
  assert (Hm : Nat.land k 15 = (k mod 16)%nat).
  { change 15%nat with (Nat.ones 4). rewrite Nat.land_ones. reflexivity. }
  split; [|split; [|split]].
  - unfold SIMD16u.store_x86, SIMD16u.load_x86. destruct (k <? 16)%nat; reflexivity.
  - unfold SIMD16u.store_arm, SIMD16u.load_arm. simpl.
    destruct (k <? 8)%nat eqn:E8; [reflexivity|].
    destruct (k <? 16)%nat; [|reflexivity].
    apply Nat.ltb_ge in E8. f_equal. lia.
  - unfold SIMD16u.index_x86, SIMD16u.load_x86. rewrite Hm. reflexivity.
  - unfold SIMD16u.index_arm, SIMD16u.arr, SIMD16u.load_arm. rewrite Hm.
    cbn [SIMD16u.lo SIMD16u.hi].
    destruct (k mod 16 <? 8)%nat eqn:E8; [reflexivity|].
    apply Nat.ltb_ge in E8. f_equal. lia.
Qed.

(** [load] after [store] gives back the stored register on each of its 16
    lanes, on both backends. *)
Lemma simd16_load_store (v : SIMD16u.reg) (c : SIMD16u.Holder) (buf : nat -> Z)
    (i : nat) :
  (i < 16)%nat ->
  SIMD16u.load_x86 (SIMD16u.store_x86 v buf) i = v i /\
  SIMD16u.arr (SIMD16u.load_arm (SIMD16u.store_arm c buf)) i = SIMD16u.arr c i.
Proof.
  intros Hi. split.
  - unfold SIMD16u.load_x86, SIMD16u.store_x86.
    replace (i <? 16)%nat with true by (symmetry; apply Nat.ltb_lt; lia).
    reflexivity.
  - unfold SIMD16u.arr, SIMD16u.load_arm, SIMD16u.store_arm.
    cbn [SIMD16u.lo SIMD16u.hi].
    destruct (i <? 8)%nat eqn:E8; [reflexivity|].
    apply Nat.ltb_ge in E8.
    replace (8 + (i - 8) <? 8)%nat with false by (symmetry; apply Nat.ltb_ge; lia).
    replace (8 + (i - 8) <? 16)%nat with true by (symmetry; apply Nat.ltb_lt; lia).
    f_equal. lia.
Qed.

Lemma simd16_load_store_witness :
  (13 < 16)%nat /\
  SIMD16u.load_x86 (SIMD16u.store_x86 (fun j => Z.of_nat j) (fun _ => 0)) 13%nat =
    Z.of_nat 13 /\
  SIMD16u.arr (SIMD16u.load_arm (SIMD16u.store_arm
     {| SIMD16u.lo := fun j => Z.of_nat j; SIMD16u.hi := fun j => 100 + Z.of_nat j |}
     (fun _ => 0))) 13%nat =
  SIMD16u.arr
     {| SIMD16u.lo := fun j => Z.of_nat j; SIMD16u.hi := fun j => 100 + Z.of_nat j |}
     13%nat.
Proof.
  split; [lia|].
  exact (simd16_load_store (fun j => Z.of_nat j)
    {| SIMD16u.lo := fun j => Z.of_nat j; SIMD16u.hi := fun j => 100 + Z.of_nat j |}
    (fun _ => 0) 13%nat ltac:(lia)).
Defined.
